(** * A shallow embedding of the password generator (src/pwd-gen.ts, src/cli.ts)

    The development follows the TypeScript source function by function:
    - JavaScript numbers that the code branches on (lengths, minimums) are
      [number]: [NaN] or a finite value, the finite doubles being embedded
      in the rationals; the infinities are not modelled;
    - the entropy arithmetic ([Math.log2], [Math.round], [*], [/]) is kept
      behind the interface [Float64], so that nothing is assumed about
      rounding of doubles;
    - the cryptographic byte source is a finite tape of bytes threaded through
      a state-and-exception monad; a run that needs more bytes than the tape
      holds ends in [More];
    - strings are [string], arrays are lists whose elements may be
      [None] (JavaScript's [undefined]). *)

From Stdlib Require Import ZArith QArith Qround List Bool Lia Permutation.
From Stdlib.Strings Require Import String Ascii Byte.
Import ListNotations.
Local Open Scope string_scope.
Local Open Scope Z_scope.

Set Implicit Arguments.

(** ** JavaScript numbers used for lengths and counts *)

Inductive number : Type :=
| NaN
| Num (q : Q).

Definition num (z : Z) : number := Num (inject_Z z).

Definition isNaN (x : number) : bool :=
  match x with NaN => true | Num _ => false end.

(** [x < y]; any comparison with [NaN] is false. *)
Definition num_lt (x y : number) : bool :=
  match x, y with
  | Num a, Num b => negb (Qle_bool b a)
  | _, _ => false
  end.

(** [x > y]. *)
Definition num_gt (x y : number) : bool := num_lt y x.

Definition Math_floor (x : number) : number :=
  match x with
  | NaN => NaN
  | Num q => num (Qfloor q)
  end.

Definition Math_max (x y : number) : number :=
  match x, y with
  | Num a, Num b => if Qle_bool a b then Num b else Num a
  | _, _ => NaN
  end.

(** Number of times the body of [for (let i = start; i < bound; i++)] runs. *)
Definition iterations (start : Z) (bound : number) : nat :=
  match bound with
  | NaN => O
  | Num q => Z.to_nat (Qceiling q - start)
  end.

(** ** Strings *)

Definition strlen (s : string) : Z := Z.of_nat (String.length s).

(** [s[i]]: a one-character string, or [undefined] out of range. *)
Definition str_index (s : string) (i : Z) : option string :=
  if i <? 0 then None
  else match String.get (Z.to_nat i) s with
       | Some c => Some (String c EmptyString)
       | None => None
       end.

(** Truthiness of an optional string: absent and empty are both falsy. *)
Definition truthy_str (s : option string) : bool :=
  match s with
  | Some (String _ _) => true
  | _ => false
  end.

Definition truthy_bool (b : option bool) : bool :=
  match b with Some true => true | _ => false end.

(** [a || d] on an optional string. *)
Definition or_str (a : option string) (d : string) : string :=
  match a with
  | Some (String c r) => String c r
  | _ => d
  end.

Definition default {A : Type} (d : A) (x : option A) : A :=
  match x with Some v => v | None => d end.

(** [Array.prototype.join]: [undefined] elements contribute the empty string. *)
Fixpoint Array_join (sep : string) (xs : list (option string)) : string :=
  match xs with
  | [] => ""
  | [x] => default "" x
  | x :: rest => default "" x ++ sep ++ Array_join sep rest
  end.

(** ** Options, presets and the generator instance *)

Inductive Mode : Type := random | passphrase.

Module Opt.
Record t : Type := mk {
  mode : option Mode;
  length : option number;
  isSpecial : option bool;
  customCharset : option string;
  excludeSimilar : option bool;
  minLower : option number;
  minUpper : option number;
  minDigit : option number;
  minSpecial : option number;
  separator : option string;
  wordlist : option (list string);
  preset : option string
}.

(** The empty object [{}]. *)
Definition empty : t :=
  mk None None None None None None None None None None None None.
End Opt.

Abbreviation PasswordOptions := Opt.t.

Definition preset_wifi : PasswordOptions :=
  Opt.mk None (Some (num 16)) (Some false) None (Some true)
         None None None None None None None.
Definition preset_enterprise : PasswordOptions :=
  Opt.mk None (Some (num 20)) None None None
         None (Some (num 2)) (Some (num 2)) (Some (num 2)) None None None.
Definition preset_legacy : PasswordOptions :=
  Opt.mk None (Some (num 8)) (Some true) None None
         None None None None None None None.
Definition preset_ultra : PasswordOptions :=
  Opt.mk None (Some (num 64)) None None None
         None None (Some (num 10)) (Some (num 10)) None None None.

(** [PRESETS[name]], as far as the spread can see it: [None] stands for a
    value that copies nothing, [undefined] or a member inherited from
    [Object.prototype]. *)
Definition PRESETS (name : string) : option PasswordOptions :=
  if String.eqb name "wifi" then Some preset_wifi
  else if String.eqb name "enterprise" then Some preset_enterprise
  else if String.eqb name "legacy" then Some preset_legacy
  else if String.eqb name "ultra" then Some preset_ultra
  else None.

(** One field of [{ ...a, ...b }]: the later object wins where it defines it. *)
Definition over {A : Type} (a b : option A) : option A :=
  match b with Some v => Some v | None => a end.

(** The object spread [{ ...a, ...b }]. *)
Definition spread (a b : PasswordOptions) : PasswordOptions :=
  Opt.mk (over (Opt.mode a) (Opt.mode b))
         (over (Opt.length a) (Opt.length b))
         (over (Opt.isSpecial a) (Opt.isSpecial b))
         (over (Opt.customCharset a) (Opt.customCharset b))
         (over (Opt.excludeSimilar a) (Opt.excludeSimilar b))
         (over (Opt.minLower a) (Opt.minLower b))
         (over (Opt.minUpper a) (Opt.minUpper b))
         (over (Opt.minDigit a) (Opt.minDigit b))
         (over (Opt.minSpecial a) (Opt.minSpecial b))
         (over (Opt.separator a) (Opt.separator b))
         (over (Opt.wordlist a) (Opt.wordlist b))
         (over (Opt.preset a) (Opt.preset b)).

(** [options.preset ? PRESETS[options.preset] : {}], as the object that is
    then spread: spreading [undefined] copies nothing. *)
Definition preset_object (options : PasswordOptions) : PasswordOptions :=
  if truthy_str (Opt.preset options)
  then default Opt.empty (PRESETS (default "" (Opt.preset options)))
  else Opt.empty.

(** The exceptions, named after the condition that raises them: the five
    messages of the constructor and of [generateRandom], the unknown-preset
    error of the command line, and the [RangeError] of [new Uint8Array]. *)
Inductive Error : Type :=
| InvalidLength
| EmptyCharset
| EmptyCharsetAfterExclusion
| MinimumsExceedLength
| InvalidPassphraseLength
| UnknownPreset
| RangeError.

Definition LOWER : string := "abcdefghijklmnopqrstuvwxyz".
Definition UPPER : string := "ABCDEFGHIJKLMNOPQRSTUVWXYZ".
Definition DIGITS : string := "0123456789".
Definition SPECIAL : string :=
  "!@#$%^&*()_+-=[]{}|;':" ++ String (ascii_of_nat 34) ",./<>?".

(** The character class [[il1Lo0O]]. *)
Definition SIMILAR_CHARS (c : ascii) : bool :=
  existsb (Ascii.eqb c) (list_ascii_of_string "il1Lo0O").

(** [s.replace(SIMILAR_CHARS, "")] with the global flag. *)
Fixpoint replace_similar (s : string) : string :=
  match s with
  | EmptyString => EmptyString
  | String c rest =>
      if SIMILAR_CHARS c then replace_similar rest
      else String c (replace_similar rest)
  end.

Module Gen.
Record t : Type := mk {
  mode : Mode;
  length : number;
  charset : string;
  isSpecial : bool;
  options : PasswordOptions
}.
End Gen.

Abbreviation PasswordGenerator := Gen.t.

(** [new PasswordGenerator(options)]. The test [typeof length !== "number"]
    is omitted: the field has type [number]. *)
Definition constructor (options : PasswordOptions) : Error + PasswordGenerator :=
  let preset := preset_object options in
  let this_options := spread options preset in
  let this_mode := default random (Opt.mode this_options) in
  match this_mode with
  | random =>
      let length := default (num 12) (Opt.length this_options) in
      let isSpecial := default true (Opt.isSpecial this_options) in
      let customCharset := Opt.customCharset this_options in
      let excludeSimilar := default false (Opt.excludeSimilar this_options) in
      if isNaN length || num_lt length (num 8) || num_gt length (num 128)
      then inl InvalidLength
      else
        let this_length := Math_floor length in
        let finish (baseCharset : string) :=
          if excludeSimilar then
            let charset := replace_similar baseCharset in
            if strlen charset =? 0 then inl EmptyCharsetAfterExclusion
            else inr (Gen.mk this_mode this_length charset isSpecial this_options)
          else inr (Gen.mk this_mode this_length baseCharset isSpecial this_options) in
        if truthy_str customCharset then
          if strlen (default "" customCharset) =? 0 then inl EmptyCharset
          else finish (default "" customCharset)
        else
          finish (if isSpecial then LOWER ++ UPPER ++ DIGITS ++ SPECIAL
                  else LOWER ++ UPPER ++ DIGITS)
  | passphrase =>
      let length := default (num 5) (Opt.length this_options) in
      if num_lt length (num 3) || num_gt length (num 20)
      then inl InvalidPassphraseLength
      else inr (Gen.mk this_mode length "" false this_options)
  end.

(** ** The random source and the monad of the sampling engine *)

(** Result of running a computation on a finite tape of random bytes: a value
    with the unread rest of the tape, a thrown exception, or [More] when the
    computation has not finished by the end of the tape. *)
Inductive outcome (A : Type) : Type :=
| Ret (a : A) (rest : list byte)
| Throw (e : Error)
| More.

Arguments Throw {A} e.
Arguments More {A}.

Definition M (A : Type) : Type := list byte -> outcome A.

Definition ret {A : Type} (a : A) : M A := fun tape => Ret a tape.

Definition throw {A : Type} (e : Error) : M A := fun _ => Throw e.

Definition bind {A B : Type} (m : M A) (k : A -> M B) : M B :=
  fun tape =>
    match m tape with
    | Ret a rest => k a rest
    | Throw e => Throw e
    | More => More
    end.

Notation "x <- m ;; k" := (bind m (fun x => k))
  (at level 61, m at next level, right associativity).

(** [getRandomValues(byteArray)] for an array of [n] bytes: the next [n]
    bytes of the tape, if it holds that many. *)
Fixpoint getRandomValues (n : nat) (tape : list byte) : option (list byte * list byte) :=
  match n with
  | O => Some ([], tape)
  | S n' =>
      match tape with
      | [] => None
      | b :: tape' =>
          match getRandomValues n' tape' with
          | Some (bs, rest) => Some (b :: bs, rest)
          | None => None
          end
      end
  end.

Definition byte_val (b : byte) : Z := Z.of_N (Byte.to_N b).

(** [ToInt32]: the value of a 32-bit two's complement word. *)
Definition ToInt32 (z : Z) : Z := (z + 2 ^ 31) mod 2 ^ 32 - 2 ^ 31.

(** [val << 8]: a shift of a 32-bit signed integer. *)
Definition shl8 (val : Z) : Z := ToInt32 (ToInt32 val * 256).

(** The inner loop [for (i...) val = (val << 8) + byteArray[i]]. *)
Definition read_val (byteArray : list byte) : Z :=
  fold_left (fun val b => shl8 val + byte_val b) byteArray 0.

(** The [while (true)] loop of [getRandomInt]; [fuel] bounds the number of
    rounds, and [S (length tape)] rounds always suffice
    (see [draw_loop_fuel]). *)
Fixpoint draw_loop (fuel bytesNeeded : nat) (maxValue range min : Z)
         (tape : list byte) : outcome Z :=
  match fuel with
  | O => More
  | S fuel' =>
      match getRandomValues bytesNeeded tape with
      | None => More
      | Some (byteArray, rest) =>
          let val := read_val byteArray in
          if val <? maxValue - Z.rem maxValue range
          then Ret (min + Z.rem val range) rest
          else draw_loop fuel' bytesNeeded maxValue range min rest
      end
  end.

(** [getRandomInt(min, max)]. [Math.ceil(Math.log2(range))] is [Z.log2_up]
    for [range >= 1]. For [range = 0] the byte count is [-Infinity] and
    [new Uint8Array] throws a [RangeError]; for [range < 0] every quantity is
    [NaN], the comparison never holds and the loop does not end. *)
Definition getRandomInt (min max : Z) : M Z :=
  fun tape =>
    let range := max - min in
    if range =? 0 then Throw RangeError
    else if range <? 0 then More
    else
      let bitsNeeded := Z.log2_up range in
      let bytesNeeded := (bitsNeeded + 7) / 8 in
      let maxValue := 256 ^ bytesNeeded in
      draw_loop (S (List.length tape)) (Z.to_nat bytesNeeded) maxValue range min tape.

(** ** Arrays *)

Section Arrays.
Variable T : Type.

(** [a[i]]. *)
Definition arr_get (a : list (option T)) (i : Z) : option T :=
  if i <? 0 then None else nth (Z.to_nat i) a None.

Fixpoint update (a : list (option T)) (i : nat) (v : option T) : list (option T) :=
  match a, i with
  | [], _ => []
  | _ :: rest, O => v :: rest
  | x :: rest, S i' => x :: update rest i' v
  end.

(** [a[i] = v]: a negative index sets a property that is not an element; an
    index past the end extends the array with holes. *)
Definition arr_set (a : list (option T)) (i : Z) (v : option T) : list (option T) :=
  if i <? 0 then a
  else if i <? Z.of_nat (List.length a) then update a (Z.to_nat i) v
  else (a ++ repeat None (Z.to_nat i - List.length a) ++ [v])%list.

(** [[a[i], a[j]] = [a[j], a[i]]]. *)
Definition swap (a : list (option T)) (i j : Z) : list (option T) :=
  let x := arr_get a j in
  let y := arr_get a i in
  arr_set (arr_set a i x) j y.

(** The loop of [shuffle], entered with [i = k]. *)
Fixpoint shuffle_loop (k : nat) (result : list (option T)) : M (list (option T)) :=
  match k with
  | O => ret result
  | S k' =>
      j <- getRandomInt 0 (Z.of_nat k + 1) ;;
      shuffle_loop k' (swap result (Z.of_nat k) j)
  end.

Definition shuffle (array : list (option T)) : M (list (option T)) :=
  shuffle_loop (List.length array - 1) array.

(** [for (...) a.push(body())], run [n] times. *)
Fixpoint push_loop (n : nat) (body : M (option T)) (a : list (option T))
  : M (list (option T)) :=
  match n with
  | O => ret a
  | S n' => x <- body ;; push_loop n' body (a ++ [x])%list
  end.

End Arrays.

(** ** Entropy arithmetic *)

(** The operations on doubles used by the entropy estimate. They are left
    uninterpreted: every statement below holds for any implementation. *)
Class Float64 (F : Type) : Type := {
  f_of_number : number -> F;
  f_mul : F -> F -> F;
  f_div : F -> F -> F;
  f_lt : F -> F -> bool;
  Math_log2 : F -> F;
  Math_round : F -> F
}.

Inductive Strength : Type := Weak | Medium | Strong | VeryStrong.

Record PasswordResult (F : Type) : Type := mkResult {
  password : string;
  entropy : F;
  strength : Strength
}.

(** [wordlist[index]]. *)
Definition list_index (l : list string) (i : Z) : option string :=
  if i <? 0 then None else nth_error l (Z.to_nat i).

(** The argument of the static entry points: an options object or the
    numeric shorthand; a call without argument is [Shorthand (num 12)]. *)
Inductive GenArg : Type :=
| Shorthand (n : number)
| Options (o : PasswordOptions).

Section Generator.

(** The built-in wordlist of [./wordlist.js]. *)
Variable DEFAULT_WORDLIST : list string.

Context {F : Type} {float64 : Float64 F}.

Definition getWordlist (this : PasswordGenerator) : list string :=
  match Opt.wordlist (Gen.options this) with
  | Some l => l
  | None => DEFAULT_WORDLIST
  end.

Definition getStrengthLevel (entropy : F) : Strength :=
  if f_lt entropy (f_of_number (num 40)) then Weak
  else if f_lt entropy (f_of_number (num 60)) then Medium
  else if f_lt entropy (f_of_number (num 80)) then Strong
  else VeryStrong.

Definition calculateEntropy (this : PasswordGenerator) : F :=
  let entropy :=
    f_mul (f_of_number (Gen.length this))
          (Math_log2 (f_of_number (num (strlen (Gen.charset this))))) in
  f_div (Math_round (f_mul entropy (f_of_number (num 100))))
        (f_of_number (num 100)).

Definition calculatePassphraseEntropy (this : PasswordGenerator) : F :=
  let entropy :=
    f_mul (f_of_number (Gen.length this))
          (Math_log2 (f_of_number
             (num (Z.of_nat (List.length (getWordlist this)))))) in
  f_div (Math_round (f_mul entropy (f_of_number (num 100))))
        (f_of_number (num 100)).

Definition pick (this : PasswordGenerator) (source : string) : M (option string) :=
  let filtered :=
    if truthy_bool (Opt.excludeSimilar (Gen.options this))
    then replace_similar source
    else source in
  if strlen filtered =? 0
  then i <- getRandomInt 0 (strlen source) ;; ret (str_index source i)
  else i <- getRandomInt 0 (strlen filtered) ;; ret (str_index filtered i).

(** The four effective minimums of [generateRandom]. *)
Definition actualMin (this : PasswordGenerator) (requested : option number) : number :=
  let o := Gen.options this in
  let m := default (num 0) requested in
  if negb (truthy_str (Opt.customCharset o)) && default true (Opt.isSpecial o)
  then Math_max m (num 1)
  else m.

Definition generateRandom (this : PasswordGenerator) : M (PasswordResult F) :=
  let o := Gen.options this in
  let actualMinLower := actualMin this (Opt.minLower o) in
  let actualMinUpper := actualMin this (Opt.minUpper o) in
  let actualMinDigit := actualMin this (Opt.minDigit o) in
  let actualMinSpecial := actualMin this (Opt.minSpecial o) in
  requiredChars <- push_loop (iterations 0 actualMinLower) (pick this LOWER) [] ;;
  requiredChars <- push_loop (iterations 0 actualMinUpper) (pick this UPPER) requiredChars ;;
  requiredChars <- push_loop (iterations 0 actualMinDigit) (pick this DIGITS) requiredChars ;;
  requiredChars <- push_loop (iterations 0 actualMinSpecial) (pick this SPECIAL) requiredChars ;;
  if num_gt (num (Z.of_nat (List.length requiredChars))) (Gen.length this)
  then throw MinimumsExceedLength
  else
    requiredChars <-
      push_loop (iterations (Z.of_nat (List.length requiredChars)) (Gen.length this))
                (pick this (Gen.charset this)) requiredChars ;;
    shuffled <- shuffle requiredChars ;;
    let password := Array_join "" shuffled in
    let entropy := calculateEntropy this in
    ret (mkResult password entropy (getStrengthLevel entropy)).

Definition generatePassphrase (this : PasswordGenerator) : M (PasswordResult F) :=
  let separator := or_str (Opt.separator (Gen.options this)) "-" in
  let wordlist := getWordlist this in
  words <-
    push_loop (iterations 0 (Gen.length this))
              (index <- getRandomInt 0 (Z.of_nat (List.length wordlist)) ;;
               ret (list_index wordlist index))
              [] ;;
  let password := Array_join separator words in
  let entropy := calculatePassphraseEntropy this in
  ret (mkResult password entropy (getStrengthLevel entropy)).

Definition generateFull (this : PasswordGenerator) : M (PasswordResult F) :=
  match Gen.mode this with
  | passphrase => generatePassphrase this
  | random => generateRandom this
  end.

Definition generate (this : PasswordGenerator) : M string :=
  r <- generateFull this ;; ret (password r).

Definition finalOptions (options : GenArg) : PasswordOptions :=
  match options with
  | Shorthand n =>
      Opt.mk None (Some n) None None None None None None None None None None
  | Options o => o
  end.

(** The static [PasswordGenerator.generateFull(options)]. *)
Definition static_generateFull (options : GenArg) : M (PasswordResult F) :=
  match constructor (finalOptions options) with
  | inl e => throw e
  | inr gen => generateFull gen
  end.

(** The static [PasswordGenerator.generate(options)]. *)
Definition static_generate (options : GenArg) : M string :=
  match constructor (finalOptions options) with
  | inl e => throw e
  | inr gen => generate gen
  end.

End Generator.

(** An executable instance of the entropy interface for running examples:
    exact rational arithmetic, with [Math_log2] and [Math_round] truncated
    to integers. No statement about entropy values is made over it. *)
Definition coarse_mul (x y : number) : number :=
  match x, y with Num a, Num b => Num (Qred (a * b)) | _, _ => NaN end.
Definition coarse_div (x y : number) : number :=
  match x, y with Num a, Num b => Num (Qred (a / b)) | _, _ => NaN end.
Definition coarse_log2 (x : number) : number :=
  match x with Num a => num (Z.log2 (Qfloor a)) | NaN => NaN end.

#[export] Instance coarse : Float64 number := {
  f_of_number := fun x => x;
  f_mul := coarse_mul;
  f_div := coarse_div;
  f_lt := num_lt;
  Math_log2 := coarse_log2;
  Math_round := Math_floor
}.

(** A small wordlist standing for the built-in one in examples. *)
Definition sample_wordlist : list string :=
  ["able"; "baker"; "candle"; "delta"; "ember"].


(** ** Vocabulary of the statements *)

(** The options object stored by the constructor. *)
Definition resolved_options (options : PasswordOptions) : PasswordOptions :=
  spread options (preset_object options).

(** Membership of a character in a character class given as a string. *)
Definition in_class (cls : string) (c : ascii) : bool :=
  existsb (Ascii.eqb c) (list_ascii_of_string cls).

(** Number of characters of [s] that satisfy [p]. *)
Fixpoint count_chars (p : ascii -> bool) (s : string) : nat :=
  match s with
  | EmptyString => O
  | String c rest => ((if p c then 1 else 0) + count_chars p rest)%nat
  end.

(** The same count over the elements of an array of strings. *)
Definition count_elems (p : ascii -> bool) (a : list (option string)) : nat :=
  fold_right (fun x n => (count_chars p (default "" x) + n)%nat) O a.

(** The big-endian unsigned value of a block of bytes. *)
Definition be_value (bs : list byte) : Z :=
  fold_left (fun v b => v * 256 + byte_val b) bs 0.

(** A tape of [k] zero bytes. *)
Definition zeros (k : nat) : list byte := repeat Byte.x00 k.

(** A field of the stored options takes the preset's value where the preset
    defines it and the request's value otherwise. *)
Definition preset_wins {A : Type} (request preset stored : option A) : Prop :=
  match preset with
  | Some v => stored = Some v
  | None => stored = request
  end.

(** The reading of the specification under which a length given on the
    request survives the merge with a preset. *)
Definition explicit_length_wins (options : PasswordOptions) : Prop :=
  forall g v,
    constructor options = inr g ->
    Opt.length options = Some v ->
    Opt.length (Gen.options g) = Some v.

(** The request with its [preset] field removed. *)
Definition without_preset (o : PasswordOptions) : PasswordOptions :=
  Opt.mk (Opt.mode o) (Opt.length o) (Opt.isSpecial o) (Opt.customCharset o)
         (Opt.excludeSimilar o) (Opt.minLower o) (Opt.minUpper o)
         (Opt.minDigit o) (Opt.minSpecial o) (Opt.separator o)
         (Opt.wordlist o) None.

(** ** Requests used in examples *)

(** [{ preset: "wifi", length: 20 }] *)
Definition request_wifi_20 : PasswordOptions :=
  Opt.mk None (Some (num 20)) None None None None None None None None None
         (Some "wifi").

(** [{ preset: "corporate" }], a name outside the preset table. *)
Definition request_unknown_preset : PasswordOptions :=
  Opt.mk None None None None None None None None None None None
         (Some "corporate").

(** [{ mode: "passphrase", length: NaN }] *)
Definition request_passphrase_NaN : PasswordOptions :=
  Opt.mk (Some passphrase) (Some NaN) None None None None None None None None
         None None.

(** [{ mode: "passphrase", wordlist: [] }] *)
Definition request_empty_wordlist : PasswordOptions :=
  Opt.mk (Some passphrase) None None None None None None None None None
         (Some []) None.

(** [{ length: n }] *)
Definition request_length (n : number) : PasswordOptions :=
  Opt.mk None (Some n) None None None None None None None None None None.

(** [{ mode: "passphrase", length: n }] *)
Definition request_words (n : number) : PasswordOptions :=
  Opt.mk (Some passphrase) (Some n) None None None None None None None None
         None None.

(** [{ length: 8, minLower: 3, minUpper: 3, minDigit: 3, minSpecial: 3 }] *)
Definition request_minimums_12_of_8 : PasswordOptions :=
  Opt.mk None (Some (num 8)) None None None
         (Some (num 3)) (Some (num 3)) (Some (num 3)) (Some (num 3))
         None None None.

(** [{ length: 12, minDigit: 10, isSpecial: false }] *)
Definition request_ten_digits : PasswordOptions :=
  Opt.mk None (Some (num 12)) (Some false) None None
         None None (Some (num 10)) None None None None.

(** [{ length: 100, excludeSimilar: true }] *)
Definition request_exclude_similar : PasswordOptions :=
  Opt.mk None (Some (num 100)) None None (Some true)
         None None None None None None None.

(** [{ mode: "passphrase", length: 3, separator: "" }] *)
Definition request_empty_separator : PasswordOptions :=
  Opt.mk (Some passphrase) (Some (num 3)) None None None None None None None
         (Some "") None None.

(** The byte count and the acceptance bound that [getRandomInt] computes for
    a range. *)
Definition bytes_for (range : Z) : Z := (Z.log2_up range + 7) / 8.

Definition threshold (range : Z) : Z :=
  256 ^ bytes_for range - Z.rem (256 ^ bytes_for range) range.

(** A block of bytes that one round of the loop reads and rejects. *)
Definition rejected_block (range : Z) (bs : list byte) : Prop :=
  List.length bs = Z.to_nat (bytes_for range) /\ threshold range <= read_val bs.

(** ** Statements about computations *)

(** [spec m Q E]: whenever [m] returns, the value satisfies [Q]; whenever it
    throws, the exception satisfies [E]. *)
Definition spec {A : Type} (m : M A) (Q : A -> Prop) (E : Error -> Prop) : Prop :=
  forall tape,
    match m tape with
    | Ret a _ => Q a
    | Throw e => E e
    | More => True
    end.

(** No exception at all. *)
Definition never (e : Error) : Prop := False.

(** [productive m c]: after any bytes already drawn, [m] returns as soon as
    the source goes on with zero bytes, and reads at most [c] of them. *)
Definition productive {A : Type} (m : M A) (c : nat) : Prop :=
  forall (tape : list byte) (k : nat),
    (c <= k)%nat ->
    exists a tape', m (tape ++ zeros k)%list = Ret a (tape' ++ zeros (k - c))%list.

(** The string that [pick] indexes: the filtered source, or the source
    itself when the filter is off or leaves nothing. *)
Definition pick_source (this : PasswordGenerator) (source : string) : string :=
  let filtered :=
    if truthy_bool (Opt.excludeSimilar (Gen.options this))
    then replace_similar source
    else source in
  if strlen filtered =? 0 then source else filtered.

(** [x] is the element [s[i]] for a drawn index [i], which is a position of
    [s] unless [s] is longer than [2^24]. *)
Definition drawn_from (s : string) (x : option string) : Prop :=
  exists i : Z, x = str_index s i /\ (strlen s <= 2 ^ 24 -> 0 <= i < strlen s).

(** [x] is a one-character string whose character satisfies [p]. *)
Definition char_with (p : ascii -> bool) (x : option string) : Prop :=
  exists c : ascii, x = Some (String c EmptyString) /\ p c = true.

(** [x] contributes no character satisfying [p]. *)
Definition free_of (p : ascii -> bool) (x : option string) : Prop :=
  count_chars p (default "" x) = O.

(** Number of guaranteed characters that [generateRandom] draws before it
    compares with the length. *)
Definition required_count (this : PasswordGenerator) : nat :=
  let o := Gen.options this in
  (iterations 0 (actualMin this (Opt.minLower o)) +
   iterations 0 (actualMin this (Opt.minUpper o)) +
   iterations 0 (actualMin this (Opt.minDigit o)) +
   iterations 0 (actualMin this (Opt.minSpecial o)))%nat.

(** The array [generateRandom] has built before the shuffle: the guaranteed
    characters of the four classes, then the fill from the alphabet. *)
Definition assembled (this : PasswordGenerator) (chars : list (option string)) : Prop :=
  let o := Gen.options this in
  exists lower upper digit special fill : list (option string),
    chars = (lower ++ upper ++ digit ++ special ++ fill)%list /\
    List.length lower = iterations 0 (actualMin this (Opt.minLower o)) /\
    List.length upper = iterations 0 (actualMin this (Opt.minUpper o)) /\
    List.length digit = iterations 0 (actualMin this (Opt.minDigit o)) /\
    List.length special = iterations 0 (actualMin this (Opt.minSpecial o)) /\
    List.length fill
      = iterations (Z.of_nat (required_count this)) (Gen.length this) /\
    Forall (drawn_from (pick_source this LOWER)) lower /\
    Forall (drawn_from (pick_source this UPPER)) upper /\
    Forall (drawn_from (pick_source this DIGITS)) digit /\
    Forall (drawn_from (pick_source this SPECIAL)) special /\
    Forall (drawn_from (pick_source this (Gen.charset this))) fill.

(** [w] is the element [wl[i]] for a drawn index [i], which is a position of
    [wl] unless [wl] is longer than [2^24]. *)
Definition drawn_word (wl : list string) (w : option string) : Prop :=
  exists i : Z,
    w = list_index wl i /\
    (Z.of_nat (List.length wl) <= 2 ^ 24 -> 0 <= i < Z.of_nat (List.length wl)).



(** The request with another separator. *)
Definition with_separator (o : PasswordOptions) (s : option string) : PasswordOptions :=
  Opt.mk (Opt.mode o) (Opt.length o) (Opt.isSpecial o) (Opt.customCharset o)
         (Opt.excludeSimilar o) (Opt.minLower o) (Opt.minUpper o)
         (Opt.minDigit o) (Opt.minSpecial o) s (Opt.wordlist o) (Opt.preset o).

(** A count [n] holds a requested minimum that is a number: [n] is at least
    the requested value (0 when absent), and at least 1 when no custom
    alphabet is supplied and special characters are enabled. *)
Definition holds_minimum (custom_supplied special_enabled : bool)
           (requested : option number) (n : nat) : Prop :=
  forall m : Q,
    default (num 0) requested = Num m ->
    (m <= inject_Z (Z.of_nat n))%Q /\
    (custom_supplied = false -> special_enabled = true -> (1 <= n)%nat).

(** [{ length: 16, minDigit: 10 }] *)
Definition request_sixteen_ten_digits : PasswordOptions :=
  Opt.mk None (Some (num 16)) None None None
         None None (Some (num 10)) None None None None.

(** [{ length: 12 }] with [minLower: NaN]. *)
Definition request_NaN_minimum : PasswordOptions :=
  Opt.mk None (Some (num 12)) None None None
         (Some NaN) None None None None None None.

(** [throws_eventually m e c]: after any bytes already drawn, [m] throws [e]
    once the source goes on with [c] zero bytes. *)
Definition throws_eventually {A : Type} (m : M A) (e : Error) (c : nat) : Prop :=
  forall (tape : list byte) (k : nat),
    (c <= k)%nat -> m (tape ++ zeros k)%list = Throw e.

(** [extensible m]: a run that returns reads only the bytes it consumes, and
    returns the same value when more bytes follow on the tape. *)
Definition extensible {A : Type} (m : M A) : Prop :=
  forall (tape : list byte) (a : A) (rest ext : list byte),
    m tape = Ret a rest -> m (tape ++ ext)%list = Ret a (rest ++ ext)%list.

(** The request with another custom alphabet. *)
Definition with_customCharset (o : PasswordOptions) (cs : option string)
  : PasswordOptions :=
  Opt.mk (Opt.mode o) (Opt.length o) (Opt.isSpecial o) cs
         (Opt.excludeSimilar o) (Opt.minLower o) (Opt.minUpper o)
         (Opt.minDigit o) (Opt.minSpecial o) (Opt.separator o)
         (Opt.wordlist o) (Opt.preset o).

(** Every character of [s] satisfies [p]. *)
Definition all_chars (p : ascii -> bool) (s : string) : Prop :=
  count_chars (fun c => negb (p c)) s = O.

(** [{ length: 12.5 }] *)
Definition request_fractional_length : PasswordOptions :=
  request_length (Num (25 # 2)).

(** [{ length: 20, customCharset: "abc" }] *)
Definition request_custom_abc : PasswordOptions :=
  Opt.mk None (Some (num 20)) None (Some "abc") None
         None None None None None None None.

(** [{ customCharset: "il1", excludeSimilar: true }] *)
Definition request_only_similar : PasswordOptions :=
  Opt.mk None None None (Some "il1") (Some true)
         None None None None None None None.

(** [{ customCharset: "" }] *)
Definition request_empty_charset : PasswordOptions :=
  Opt.mk None None None (Some "") None None None None None None None None.

(** * Configuration resolution *)

Unset Implicit Arguments.

Lemma num_lt_spec (a b : Q) : num_lt (Num a) (Num b) = true <-> (a < b)%Q.
Proof.
  unfold num_lt. rewrite negb_true_iff.
  destruct (Qle_bool b a) eqn:E.
  - apply Qle_bool_iff in E. split; [discriminate |].
    intros H. exfalso. exact (Qlt_not_le _ _ H E).
  - split; [intros _ | reflexivity].
    apply Qnot_le_lt. intros H. apply Qle_bool_iff in H. congruence.
Qed.

Lemma num_lt_false (a b : Q) : num_lt (Num a) (Num b) = false <-> (b <= a)%Q.
Proof.
  unfold num_lt. rewrite negb_false_iff. apply Qle_bool_iff.
Qed.

Ltac split_constructor H :=
  repeat match type of H with
         | (match ?x with _ => _ end) = _ => destruct x eqn:?
         | (if ?x then _ else _) = _ => destruct x eqn:?
         end.

Lemma constructor_options (options : PasswordOptions) (g : PasswordGenerator) :
  constructor options = inr g -> Gen.options g = resolved_options options.
Proof.
  unfold constructor, resolved_options. intros H.
  split_constructor H; inversion H; reflexivity.
Qed.

Lemma constructor_mode (options : PasswordOptions) (g : PasswordGenerator) :
  constructor options = inr g ->
  Gen.mode g = default random (Opt.mode (resolved_options options)).
Proof.
  unfold constructor, resolved_options. intros H.
  destruct (default random _) eqn:Em;
  split_constructor H; inversion H; reflexivity.
Qed.

(** A random-mode generator has an integer length between 8 and 128, the
    floor of the resolved length, and a non-empty alphabet. *)
Lemma constructor_random (options : PasswordOptions) (g : PasswordGenerator) :
  constructor options = inr g -> Gen.mode g = random ->
  exists q : Q,
    default (num 12) (Opt.length (resolved_options options)) = Num q /\
    (8 <= q)%Q /\ (q <= 128)%Q /\
    Gen.length g = num (Qfloor q) /\
    8 <= Qfloor q <= 128 /\
    0 < strlen (Gen.charset g).
Proof.
  intros H Hm. pose proof (constructor_mode _ _ H) as Hmode.
  rewrite Hm in Hmode. revert H.
  unfold constructor, resolved_options in *. cbv zeta. rewrite <- Hmode.
  destruct (default (num 12) _) as [|q] eqn:El; [discriminate|].
  cbn [isNaN orb].
  destruct (num_lt (Num q) (num 8)) eqn:E8; [discriminate|].
  destruct (num_gt (Num q) (num 128)) eqn:E128; [discriminate|].
  cbn [orb]. unfold num in E8, E128. unfold num_gt in E128.
  apply num_lt_false in E8. apply num_lt_false in E128.
  assert (Hfl : 8 <= Qfloor q <= 128).
  { split.
    - change 8 with (Qfloor (inject_Z 8)). now apply Qfloor_resp_le.
    - change 128 with (Qfloor (inject_Z 128)). now apply Qfloor_resp_le. }
  intros H. exists q.
  assert (Hlen : Gen.length g = num (Qfloor q) /\ 0 < strlen (Gen.charset g)).
  { destruct (truthy_str _) eqn:Et.
    - destruct (strlen (default "" _) =? 0) eqn:Ec; [discriminate|].
      apply Z.eqb_neq in Ec.
      destruct (default false _).
      + destruct (strlen (replace_similar _) =? 0) eqn:Ex; [discriminate|].
        apply Z.eqb_neq in Ex. injection H as <-; cbn [Gen.length Gen.charset].
        split; [reflexivity | unfold strlen, spread in *; cbn [Opt.customCharset Opt.isSpecial Opt.excludeSimilar Opt.length Opt.mode] in *; lia].
      + injection H as <-; cbn [Gen.length Gen.charset].
        split; [reflexivity | unfold strlen, spread in *; cbn [Opt.customCharset Opt.isSpecial Opt.excludeSimilar Opt.length Opt.mode] in *; lia].
    - destruct (default false _).
      + destruct (strlen (replace_similar _) =? 0) eqn:Ex; [discriminate|].
        apply Z.eqb_neq in Ex. injection H as <-; cbn [Gen.length Gen.charset].
        split; [reflexivity | destruct (default true _); vm_compute; reflexivity].
      + injection H as <-; cbn [Gen.length Gen.charset]. split; [reflexivity|].
        destruct (default true _); vm_compute; reflexivity. }
  destruct Hlen. repeat split; try assumption; lia.
Qed.

Lemma spread_empty (o : PasswordOptions) : spread o Opt.empty = o.
Proof. destruct o; reflexivity. Qed.

Lemma PRESETS_truthy (name : string) (p : PasswordOptions) :
  PRESETS name = Some p -> truthy_str (Some name) = true.
Proof. destruct name; [vm_compute; discriminate | reflexivity]. Qed.

Lemma preset_object_known (options : PasswordOptions) (name : string)
      (p : PasswordOptions) :
  Opt.preset options = Some name -> PRESETS name = Some p ->
  preset_object options = p.
Proof.
  intros Hn Hp. unfold preset_object. rewrite Hn.
  rewrite (PRESETS_truthy _ _ Hp). cbn [default]. now rewrite Hp.
Qed.

Lemma preset_object_unknown (options : PasswordOptions) (name : string) :
  Opt.preset options = Some name -> PRESETS name = None ->
  preset_object options = Opt.empty.
Proof.
  intros Hn Hp. unfold preset_object. rewrite Hn. cbn [default].
  rewrite Hp. now destruct (truthy_str _).
Qed.

Lemma over_preset_wins {A : Type} (a b : option A) : preset_wins a b (over a b).
Proof. destruct b; reflexivity. Qed.

(** C1 (as amended). When the request names a preset of the table, every
    field that the preset defines is stored with the preset's value, whatever
    the request gave for it; the request's own value is kept only for the
    fields the preset leaves undefined. In random mode the generator's length
    is the floor of the preset's length whenever the preset defines one. *)
Theorem preset_fields_override_request :
  forall (options : PasswordOptions) (name : string) (p : PasswordOptions)
         (g : PasswordGenerator),
    Opt.preset options = Some name ->
    PRESETS name = Some p ->
    constructor options = inr g ->
    let stored := Gen.options g in
    preset_wins (Opt.mode options) (Opt.mode p) (Opt.mode stored) /\
    preset_wins (Opt.length options) (Opt.length p) (Opt.length stored) /\
    preset_wins (Opt.isSpecial options) (Opt.isSpecial p) (Opt.isSpecial stored) /\
    preset_wins (Opt.customCharset options) (Opt.customCharset p)
                (Opt.customCharset stored) /\
    preset_wins (Opt.excludeSimilar options) (Opt.excludeSimilar p)
                (Opt.excludeSimilar stored) /\
    preset_wins (Opt.minLower options) (Opt.minLower p) (Opt.minLower stored) /\
    preset_wins (Opt.minUpper options) (Opt.minUpper p) (Opt.minUpper stored) /\
    preset_wins (Opt.minDigit options) (Opt.minDigit p) (Opt.minDigit stored) /\
    preset_wins (Opt.minSpecial options) (Opt.minSpecial p) (Opt.minSpecial stored) /\
    preset_wins (Opt.separator options) (Opt.separator p) (Opt.separator stored) /\
    preset_wins (Opt.wordlist options) (Opt.wordlist p) (Opt.wordlist stored) /\
    (Gen.mode g = random ->
     forall v, Opt.length p = Some v -> Gen.length g = Math_floor v).
Proof.
  intros options name p g Hn Hp Hc stored.
  assert (Hs : stored = spread options p).
  { unfold stored. rewrite (constructor_options _ _ Hc).
    unfold resolved_options. now rewrite (preset_object_known _ _ _ Hn Hp). }
  rewrite Hs. cbn [spread Opt.mode Opt.length Opt.isSpecial Opt.customCharset
                   Opt.excludeSimilar Opt.minLower Opt.minUpper Opt.minDigit
                   Opt.minSpecial Opt.separator Opt.wordlist].
  repeat (split; [apply over_preset_wins |]).
  intros Hm v Hv.
  destruct (constructor_random _ _ Hc Hm) as (q & Hq & _ & _ & Hl & _).
  unfold resolved_options in Hq. rewrite (preset_object_known _ _ _ Hn Hp) in Hq.
  cbn [spread Opt.length] in Hq. rewrite Hv in Hq. cbn [over default] in Hq.
  subst v. exact Hl.
Qed.

Lemma preset_fields_override_request_witness :
  exists g, constructor request_wifi_20 = inr g /\
            Opt.length (Gen.options g) = Some (num 16) /\
            Gen.length g = num 16.
Proof.
  destruct (constructor request_wifi_20) as [e | g] eqn:Hc;
    [vm_compute in Hc; discriminate Hc |].
  exists g. split; [reflexivity |].
  assert (Hm : Gen.mode g = random)
    by (vm_compute in Hc; injection Hc as <-; reflexivity).
  destruct (preset_fields_override_request request_wifi_20 "wifi" preset_wifi
              g eq_refl eq_refl Hc)
    as (_ & Hl & _ & _ & _ & _ & _ & _ & _ & _ & _ & Hg).
  split; [exact Hl | exact (Hg Hm _ eq_refl)].
Defined.

(** C1 (as stated) fails: with [{ preset: "wifi", length: 20 }] the stored
    length is the preset's 16, not the 20 the request asked for. *)
Lemma explicit_length_loses_to_preset : ~ explicit_length_wins request_wifi_20.
Proof.
  intros H.
  destruct (constructor request_wifi_20) as [e | g] eqn:Hc;
    [vm_compute in Hc; discriminate Hc |].
  specialize (H g (num 20) Hc eq_refl).
  vm_compute in Hc. injection Hc as <-. discriminate H.
Qed.

(** The errors the constructor can raise. The emptiness test on a custom
    alphabet is unreachable, an empty string being falsy. *)
Lemma constructor_errors (options : PasswordOptions) (e : Error) :
  constructor options = inl e ->
  e = InvalidLength \/ e = EmptyCharsetAfterExclusion \/
  e = InvalidPassphraseLength.
Proof.
  unfold constructor. intros H.
  destruct (truthy_str (Opt.customCharset
              (spread options (preset_object options)))) eqn:Et.
  - destruct (Opt.customCharset (spread options (preset_object options)))
      as [[|c s]|] eqn:Ec; try discriminate Et.
    cbn [default] in H. change (strlen (String c s) =? 0) with false in H.
    split_constructor H; inversion H; auto.
  - split_constructor H; inversion H; auto.
Qed.

(** C8 (as amended). A preset name outside the table is not rejected by the
    constructor: nothing is merged, no unknown-preset error is raised, and
    construction fails or succeeds exactly as for the same request without
    the preset, with the same mode, length, alphabet and special flag. *)
Theorem unknown_preset_is_ignored :
  forall (options : PasswordOptions) (name : string),
    Opt.preset options = Some name ->
    PRESETS name = None ->
    resolved_options options = options /\
    constructor options <> inl UnknownPreset /\
    match constructor options, constructor (without_preset options) with
    | inl e, inl e' => e = e'
    | inr g, inr g' =>
        Gen.mode g = Gen.mode g' /\ Gen.length g = Gen.length g' /\
        Gen.charset g = Gen.charset g' /\ Gen.isSpecial g = Gen.isSpecial g' /\
        Gen.options g = options /\ Gen.options g' = without_preset options
    | _, _ => False
    end.
Proof.
  intros options name Hn Hp.
  assert (Hr : resolved_options options = options).
  { unfold resolved_options. rewrite (preset_object_unknown _ _ Hn Hp).
    apply spread_empty. }
  split; [exact Hr |]. split.
  - intros H. apply constructor_errors in H.
    destruct H as [H | [H | H]]; discriminate H.
  - unfold constructor. fold (resolved_options options).
    fold (resolved_options (without_preset options)). rewrite Hr.
    replace (resolved_options (without_preset options))
      with (without_preset options)
      by (unfold resolved_options, preset_object; cbn; now rewrite spread_empty).
    destruct options; cbn [without_preset Opt.mode Opt.length Opt.isSpecial
      Opt.customCharset Opt.excludeSimilar].
    repeat match goal with
           | |- context [match ?x with _ => _ end] =>
               match x with
               | context [match _ with _ => _ end] => fail 1
               | _ => destruct x eqn:?
               end
           end; cbn; auto 10.
Qed.

Lemma unknown_preset_is_ignored_witness :
  resolved_options request_unknown_preset = request_unknown_preset /\
  constructor request_unknown_preset <> inl UnknownPreset.
Proof.
  destruct (unknown_preset_is_ignored request_unknown_preset "corporate"
              eq_refl eq_refl) as (H1 & H2 & _).
  split; assumption.
Defined.

(** C8 (as stated) fails: the name "corporate" is not in the preset table,
    yet the constructor returns a generator. *)
Lemma unknown_preset_not_rejected :
  PRESETS "corporate" = None /\
  Opt.preset request_unknown_preset = Some "corporate" /\
  constructor request_unknown_preset <> inl UnknownPreset /\
  exists g, constructor request_unknown_preset = inr g.
Proof.
  split; [reflexivity |]. split; [reflexivity |].
  destruct (constructor request_unknown_preset) as [e | g] eqn:Hc;
    [vm_compute in Hc; discriminate Hc |].
  split; [discriminate | now exists g].
Qed.

(** * Length validation *)

(** X15. In random mode the constructor raises the length error exactly for
    [NaN] and for the finite lengths below 8 or above 128; a fractional length
    within the bounds is accepted. *)
Lemma random_length_rejected (options : PasswordOptions) :
  default random (Opt.mode (resolved_options options)) = random ->
  (constructor options = inl InvalidLength <->
   match default (num 12) (Opt.length (resolved_options options)) with
   | NaN => True
   | Num q => (q < 8)%Q \/ (128 < q)%Q
   end).
Proof.
  intros Hm. unfold constructor. fold (resolved_options options). rewrite Hm.
  destruct (default (num 12) _) as [|q]; cbn [isNaN orb]; [tauto |].
  destruct (num_lt (Num q) (num 8)) eqn:E8.
  - cbn [orb]. apply num_lt_spec in E8. tauto.
  - apply num_lt_false in E8. unfold num_gt.
    destruct (num_lt (num 128) (Num q)) eqn:E128; cbn [orb].
    + apply num_lt_spec in E128. tauto.
    + apply num_lt_false in E128. split.
      * intros H. exfalso.
        destruct (truthy_str _); split_constructor H; discriminate H.
      * intros [H | H]; exfalso.
        -- exact (Qlt_not_le _ _ H E8).
        -- exact (Qlt_not_le _ _ H E128).
Qed.

(** X16. In passphrase mode the constructor raises the passphrase-length
    error exactly for the finite word counts below 3 or above 20; [NaN] and
    fractional counts within the bounds are accepted. *)
Lemma passphrase_length_rejected (options : PasswordOptions) :
  default random (Opt.mode (resolved_options options)) = passphrase ->
  (constructor options = inl InvalidPassphraseLength <->
   match default (num 5) (Opt.length (resolved_options options)) with
   | NaN => False
   | Num q => (q < 3)%Q \/ (20 < q)%Q
   end).
Proof.
  intros Hm. unfold constructor. fold (resolved_options options). rewrite Hm.
  destruct (default (num 5) _) as [|q].
  - cbn. split; [discriminate | tauto].
  - destruct (num_lt (Num q) (num 3)) eqn:E3.
    + cbn [orb]. apply num_lt_spec in E3. tauto.
    + apply num_lt_false in E3. unfold num_gt.
      destruct (num_lt (num 20) (Num q)) eqn:E20; cbn [orb].
      * apply num_lt_spec in E20. tauto.
      * apply num_lt_false in E20. split; [discriminate |].
        intros [H | H]; exfalso.
        -- exact (Qlt_not_le _ _ H E3).
        -- exact (Qlt_not_le _ _ H E20).
Qed.

(** The boundary cases of the test suite. *)
Lemma length_boundaries :
  (exists g, constructor (request_length (num 8)) = inr g /\ Gen.length g = num 8) /\
  (exists g, constructor (request_length (num 128)) = inr g /\ Gen.length g = num 128) /\
  constructor (request_length (num 7)) = inl InvalidLength /\
  constructor (request_length (num 129)) = inl InvalidLength /\
  constructor (request_length NaN) = inl InvalidLength /\
  (exists g, constructor (request_words (num 3)) = inr g /\ Gen.length g = num 3) /\
  (exists g, constructor (request_words (num 20)) = inr g /\ Gen.length g = num 20) /\
  constructor (request_words (num 2)) = inl InvalidPassphraseLength /\
  constructor (request_words (num 21)) = inl InvalidPassphraseLength.
Proof.
  repeat split; try (vm_compute; reflexivity);
    eexists; split; vm_compute; reflexivity.
Qed.

(** C7, at the failing input [{ mode: "passphrase", length: NaN }]: the
    constructor raises no error and returns a generator whose word count is
    [NaN]; the random-mode branch rejects the same length. *)
Theorem passphrase_NaN_length_accepted :
  constructor request_passphrase_NaN
    = inr (Gen.mk passphrase NaN "" false request_passphrase_NaN) /\
  constructor request_passphrase_NaN <> inl InvalidPassphraseLength /\
  constructor (request_length NaN) = inl InvalidLength.
Proof.
  split; [vm_compute; reflexivity |].
  split; [vm_compute; discriminate | vm_compute; reflexivity].
Qed.

(** A fractional word count inside the bounds is accepted as well. *)
Lemma passphrase_fractional_length_accepted :
  exists g, constructor (request_words (Num (7 # 2))) = inr g /\
            Gen.length g = Num (7 # 2).
Proof. eexists. split; vm_compute; reflexivity. Qed.

(** * The uniform draw *)

Lemma byte_val_bound (b : byte) : 0 <= byte_val b < 256.
Proof.
  unfold byte_val. pose proof (Byte.to_N_bounded b). lia.
Qed.

Lemma tape_ind (P : list byte -> Prop) :
  (forall tape, (forall t, (List.length t < List.length tape)%nat -> P t) -> P tape) ->
  forall tape, P tape.
Proof.
  intros H tape.
  assert (G : forall n t, (List.length t < n)%nat -> P t).
  { induction n as [|n IH]; intros t Ht; [lia |].
    apply H. intros t' Ht'. apply IH. lia. }
  apply (G (S (List.length tape))). lia.
Qed.

Lemma getRandomValues_spec (n : nat) (tape bs rest : list byte) :
  getRandomValues n tape = Some (bs, rest) ->
  tape = (bs ++ rest)%list /\ List.length bs = n.
Proof.
  revert tape bs rest. induction n as [|n IH]; intros tape bs rest H.
  - cbn in H. injection H as <- <-. split; reflexivity.
  - cbn in H. destruct tape as [|b tape]; [discriminate |].
    destruct (getRandomValues n tape) as [[bs' rest']|] eqn:E; [|discriminate].
    injection H as <- <-. destruct (IH _ _ _ E) as [-> <-].
    split; reflexivity.
Qed.

Lemma getRandomValues_app (bs rest : list byte) :
  getRandomValues (List.length bs) (bs ++ rest) = Some (bs, rest).
Proof.
  induction bs as [|b bs IH]; [reflexivity |].
  cbn. now rewrite IH.
Qed.

Lemma getRandomValues_short (n : nat) (tape : list byte) :
  getRandomValues n tape = None <-> (List.length tape < n)%nat.
Proof.
  revert tape. induction n as [|n IH]; intros tape; cbn.
  - split; [discriminate | lia].
  - destruct tape as [|b tape]; cbn; [split; [lia | reflexivity] |].
    specialize (IH tape).
    destruct (getRandomValues n tape) as [[bs rest]|].
    + split; [discriminate |]. intros H.
      assert (Hn : (List.length tape < n)%nat) by lia.
      apply IH in Hn. discriminate Hn.
    + split; [intros _ | reflexivity].
      assert (Hn : (List.length tape < n)%nat) by now apply IH.
      lia.
Qed.

(** ** The byte count *)

Lemma bytes_for_nonneg (range : Z) : 0 <= bytes_for range.
Proof.
  unfold bytes_for. pose proof (Z.log2_up_nonneg range).
  apply Z.div_pos; lia.
Qed.

Lemma pow256 (n : Z) : 0 <= n -> 256 ^ n = 2 ^ (8 * n).
Proof.
  intros Hn. change 256 with (2 ^ 8). rewrite <- Z.pow_mul_r; lia.
Qed.

(** [bytes_for range] bytes can represent [range] values... *)
Lemma bytes_for_fits (range : Z) : 1 <= range -> range <= 256 ^ bytes_for range.
Proof.
  intros Hr. pose proof (bytes_for_nonneg range) as Hn.
  rewrite pow256 by assumption.
  apply Z.le_trans with (2 ^ Z.log2_up range).
  - apply Z.log2_up_le_pow2; lia.
  - apply Z.pow_le_mono_r; [lia |].
    unfold bytes_for. pose proof (Z.div_mod (Z.log2_up range + 7) 8).
    pose proof (Z.mod_pos_bound (Z.log2_up range + 7) 8). lia.
Qed.

(** ... and one byte fewer cannot. *)
Lemma bytes_for_minimal (range : Z) :
  1 <= range -> 0 < bytes_for range -> 256 ^ (bytes_for range - 1) < range.
Proof.
  intros Hr Hn. rewrite pow256 by lia.
  apply Z.log2_up_lt_pow2; [lia |].
  unfold bytes_for in *. pose proof (Z.div_mod (Z.log2_up range + 7) 8).
  pose proof (Z.mod_pos_bound (Z.log2_up range + 7) 8). lia.
Qed.

Lemma bytes_for_small (range : Z) :
  1 <= range <= 2 ^ 24 -> bytes_for range <= 3.
Proof.
  intros Hr. assert (H : Z.log2_up range <= 24) by (apply Z.log2_up_le_pow2; lia).
  unfold bytes_for. pose proof (Z.div_mod (Z.log2_up range + 7) 8).
  pose proof (Z.mod_pos_bound (Z.log2_up range + 7) 8). lia.
Qed.

(** The acceptance bound is the largest multiple of the range that the
    bytes can hold, [floor(256^n / range) * range], and is at least the
    range. *)
Lemma threshold_spec (range : Z) :
  1 <= range ->
  threshold range = 256 ^ bytes_for range / range * range /\
  range <= threshold range <= 256 ^ bytes_for range.
Proof.
  intros Hr. unfold threshold.
  pose proof (bytes_for_fits _ Hr) as Hfit.
  set (m := 256 ^ bytes_for range) in *.
  rewrite Z.rem_mod_nonneg by lia.
  pose proof (Z.div_mod m range). pose proof (Z.mod_pos_bound m range).
  assert (1 <= m / range) by (apply Z.div_le_lower_bound; lia).
  split; [lia | nia].
Qed.

(** ** Reading a block *)

Lemma ToInt32_small (z : Z) : - 2 ^ 31 <= z < 2 ^ 31 -> ToInt32 z = z.
Proof.
  intros H. unfold ToInt32. rewrite Z.mod_small; lia.
Qed.

Lemma shl8_small (v : Z) : 0 <= v < 2 ^ 23 -> shl8 v = v * 256.
Proof.
  intros H. unfold shl8. rewrite (ToInt32_small v) by lia.
  apply ToInt32_small. lia.
Qed.

Lemma read_fold_small (bs : list byte) (v k : Z) :
  0 <= k -> 0 <= v < 256 ^ k -> k + Z.of_nat (List.length bs) <= 3 ->
  fold_left (fun val b => shl8 val + byte_val b) bs v
  = fold_left (fun val b => val * 256 + byte_val b) bs v /\
  0 <= fold_left (fun val b => val * 256 + byte_val b) bs v
    < 256 ^ (k + Z.of_nat (List.length bs)).
Proof.
  revert v k. induction bs as [|b bs IH]; intros v k Hk Hv Hlen.
  - cbn. rewrite Z.add_0_r. split; [reflexivity | assumption].
  - cbn [fold_left List.length] in *.
    assert (Hv23 : 0 <= v < 2 ^ 23).
    { split; [lia |]. apply Z.lt_le_trans with (256 ^ k); [lia |].
      rewrite pow256 by lia. apply Z.pow_le_mono_r; lia. }
    rewrite (shl8_small _ Hv23).
    pose proof (byte_val_bound b) as Hb.
    assert (Hstep : 0 <= v * 256 + byte_val b < 256 ^ (k + 1)).
    { rewrite Z.pow_add_r by lia. lia. }
    destruct (IH (v * 256 + byte_val b) (k + 1)) as [E B]; [lia | exact Hstep | lia |].
    split; [exact E |].
    replace (k + Z.of_nat (S (List.length bs)))
      with (k + 1 + Z.of_nat (List.length bs)) by lia.
    exact B.
Qed.

(** Up to three bytes, the shifts do not overflow and the loop computes the
    big-endian unsigned value of the block. *)
Lemma read_val_be (bs : list byte) :
  (List.length bs <= 3)%nat ->
  read_val bs = be_value bs /\
  0 <= be_value bs < 256 ^ Z.of_nat (List.length bs).
Proof.
  intros H. unfold read_val, be_value.
  apply (read_fold_small bs 0 0); cbn; lia.
Qed.

(** ** The loop *)

Lemma draw_loop_fuel (n : nat) (maxValue range min : Z) :
  (0 < n)%nat ->
  forall (f1 f2 : nat) (tape : list byte),
    (List.length tape < f1)%nat -> (List.length tape < f2)%nat ->
    draw_loop f1 n maxValue range min tape = draw_loop f2 n maxValue range min tape.
Proof.
  intros Hn. induction f1 as [|f1 IH]; intros f2 tape H1 H2; [lia |].
  destruct f2 as [|f2]; [lia |]. cbn [draw_loop].
  destruct (getRandomValues n tape) as [[bs rest]|] eqn:E; [|reflexivity].
  destruct (_ <? _); [reflexivity |].
  destruct (getRandomValues_spec _ _ _ _ E) as [-> Hl].
  rewrite length_app in H1, H2. apply IH; lia.
Qed.

(** One round of [getRandomInt]: read a block, return on acceptance, start
    again on the rest of the tape otherwise. *)
Lemma getRandomInt_unfold (min max : Z) (tape : list byte) :
  1 <= max - min ->
  getRandomInt min max tape =
  match getRandomValues (Z.to_nat (bytes_for (max - min))) tape with
  | None => More
  | Some (bs, rest) =>
      if read_val bs <? threshold (max - min)
      then Ret (min + Z.rem (read_val bs) (max - min)) rest
      else getRandomInt min max rest
  end.
Proof.
  intros Hr.
  assert (Hdef : forall t, getRandomInt min max t
                 = draw_loop (S (List.length t)) (Z.to_nat (bytes_for (max - min)))
                             (256 ^ bytes_for (max - min)) (max - min) min t).
  { intros t. unfold getRandomInt.
    replace (max - min =? 0) with false by (symmetry; apply Z.eqb_neq; lia).
    replace (max - min <? 0) with false by (symmetry; apply Z.ltb_ge; lia).
    reflexivity. }
  rewrite Hdef. cbn [draw_loop]. fold (threshold (max - min)).
  destruct (getRandomValues _ tape) as [[bs rest]|] eqn:E; [|reflexivity].
  destruct (read_val bs <? threshold (max - min)) eqn:Ea; [reflexivity |].
  rewrite Hdef.
  destruct (getRandomValues_spec _ _ _ _ E) as [-> Hl].
  assert (Hn : (0 < Z.to_nat (bytes_for (max - min)))%nat).
  { destruct (Z.to_nat (bytes_for (max - min))); [|lia].
    destruct bs; [|discriminate Hl].
    apply Z.ltb_ge in Ea. change (read_val []) with 0 in Ea.
    pose proof (threshold_spec _ Hr). lia. }
  apply draw_loop_fuel; [exact Hn | rewrite length_app; lia | lia].
Qed.

(** ** What the draw returns *)

(** A returned draw read some rejected blocks, then one accepted block, and
    returned that block's value reduced modulo the range. *)
Lemma getRandomInt_ret (min max : Z) :
  1 <= max - min ->
  forall (tape : list byte) (v : Z) (rest : list byte),
    getRandomInt min max tape = Ret v rest ->
    exists (rejected : list (list byte)) (bs : list byte),
      tape = (List.concat rejected ++ bs ++ rest)%list /\
      Forall (rejected_block (max - min)) rejected /\
      List.length bs = Z.to_nat (bytes_for (max - min)) /\
      read_val bs < threshold (max - min) /\
      v = min + Z.rem (read_val bs) (max - min).
Proof.
  intros Hr tape. induction tape as [tape IH] using tape_ind.
  intros v rest H. rewrite getRandomInt_unfold in H by assumption.
  destruct (getRandomValues _ tape) as [[bs t]|] eqn:E; [|discriminate].
  destruct (getRandomValues_spec _ _ _ _ E) as [-> Hl].
  destruct (read_val bs <? threshold (max - min)) eqn:Ea.
  - injection H as <- <-. exists [], bs. apply Z.ltb_lt in Ea.
    repeat split; auto.
  - apply Z.ltb_ge in Ea.
    assert (Hn : (0 < List.length bs)%nat).
    { destruct bs; [|cbn; lia]. change (read_val []) with 0 in Ea.
      pose proof (threshold_spec _ Hr). lia. }
    assert (Hshort : (List.length t < List.length (bs ++ t))%nat)
      by (rewrite length_app; lia).
    destruct (IH t Hshort v rest H) as (rej & bs' & -> & Hrej & Hl' & Hacc & Hv).
    exists (bs :: rej), bs'. cbn [List.concat]. rewrite <- app_assoc.
    repeat split; auto. constructor; [split; assumption | assumption].
Qed.

(** Conversely, rejected blocks followed by an accepted one make the draw
    return: the loop redraws exactly on the blocks at or above the bound. *)
Lemma getRandomInt_accepts (min max : Z) :
  1 <= max - min ->
  forall (rejected : list (list byte)) (bs rest : list byte),
    Forall (rejected_block (max - min)) rejected ->
    List.length bs = Z.to_nat (bytes_for (max - min)) ->
    read_val bs < threshold (max - min) ->
    getRandomInt min max (List.concat rejected ++ bs ++ rest)%list
    = Ret (min + Z.rem (read_val bs) (max - min)) rest.
Proof.
  intros Hr rejected bs rest Hrej Hl Hacc.
  induction Hrej as [|b rej [Hbl Hb] _ IH]; cbn [List.concat app].
  - rewrite getRandomInt_unfold by assumption.
    rewrite <- Hl, getRandomValues_app.
    apply Z.ltb_lt in Hacc. now rewrite Hacc.
  - rewrite getRandomInt_unfold by assumption.
    rewrite <- app_assoc, <- Hbl, getRandomValues_app.
    apply Z.ltb_ge in Hb. now rewrite Hb.
Qed.

(** The draw throws for no range of at least one value. *)
Lemma getRandomInt_safe (min max : Z) :
  1 <= max - min ->
  forall (tape : list byte) (e : Error), getRandomInt min max tape <> Throw e.
Proof.
  intros Hr tape. induction tape as [tape IH] using tape_ind. intros e.
  rewrite getRandomInt_unfold by assumption.
  destruct (getRandomValues _ tape) as [[bs t]|] eqn:E; [|discriminate].
  destruct (getRandomValues_spec _ _ _ _ E) as [-> Hl].
  destruct (read_val bs <? threshold (max - min)) eqn:Ea; [discriminate |].
  apply IH. rewrite length_app.
  destruct bs; [|cbn; lia]. apply Z.ltb_ge in Ea.
  change (read_val []) with 0 in Ea. pose proof (threshold_spec _ Hr). lia.
Qed.

(** For ranges of at most [2^24] values the accepted block is read as its
    big-endian unsigned value, and the result lies in [[min, max)]. *)
Lemma getRandomInt_small (min max : Z) :
  1 <= max - min <= 2 ^ 24 ->
  forall (tape : list byte) (v : Z) (rest : list byte),
    getRandomInt min max tape = Ret v rest ->
    exists (rejected : list (list byte)) (bs : list byte),
      tape = (List.concat rejected ++ bs ++ rest)%list /\
      Forall (fun b => List.length b = Z.to_nat (bytes_for (max - min)) /\
                       256 ^ bytes_for (max - min) / (max - min) * (max - min)
                       <= be_value b)
             rejected /\
      List.length bs = Z.to_nat (bytes_for (max - min)) /\
      be_value bs < 256 ^ bytes_for (max - min) / (max - min) * (max - min) /\
      v = min + be_value bs mod (max - min) /\
      min <= v < max.
Proof.
  intros Hr tape v rest H.
  assert (Hr1 : 1 <= max - min) by lia.
  destruct (getRandomInt_ret min max Hr1 tape v rest H)
    as (rej & bs & Ht & Hrej & Hl & Hacc & Hv).
  pose proof (bytes_for_small _ Hr) as Hn3.
  pose proof (bytes_for_nonneg (max - min)) as Hn0.
  destruct (threshold_spec _ Hr1) as [Hth _].
  assert (Hbe : forall b, List.length b = Z.to_nat (bytes_for (max - min)) ->
                          read_val b = be_value b /\ 0 <= be_value b).
  { intros b Hb. destruct (read_val_be b) as [E B]; [lia |]. split; [exact E | lia]. }
  destruct (Hbe bs Hl) as [Ebs Hbs0].
  exists rej, bs. rewrite <- Hth, <- Ebs.
  assert (Hmod : Z.rem (read_val bs) (max - min) = read_val bs mod (max - min))
    by (apply Z.rem_mod_nonneg; lia).
  repeat split; try assumption.
  - eapply Forall_impl; [|exact Hrej].
    intros b [Hb1 Hb2]. destruct (Hbe b Hb1) as [<- _]. split; assumption.
  - now rewrite <- Hmod.
  - rewrite Hv, Hmod. pose proof (Z.mod_pos_bound (read_val bs) (max - min)). lia.
  - rewrite Hv, Hmod. pose proof (Z.mod_pos_bound (read_val bs) (max - min)). lia.
Qed.

Lemma getRandomInt_in_range (max : Z) :
  1 <= max <= 2 ^ 24 ->
  spec (getRandomInt 0 max) (fun v => 0 <= v < max) never.
Proof.
  intros Hr tape. destruct (getRandomInt 0 max tape) as [v rest | e |] eqn:E.
  - destruct (getRandomInt_small 0 max) with (2 := E) as (_ & _ & _ & _ & _ & _ & _ & H);
      [rewrite Z.sub_0_r; exact Hr | exact H].
  - exfalso. apply (getRandomInt_safe 0 max) with (2 := E). lia.
  - exact I.
Qed.

(** The draw on an empty range throws. *)
Lemma getRandomInt_empty_range (tape : list byte) :
  getRandomInt 0 0 tape = Throw RangeError.
Proof. reflexivity. Qed.

(** ** Progress of the draw *)

Lemma zeros_add (a b : nat) : zeros (a + b) = (zeros a ++ zeros b)%list.
Proof. apply repeat_app. Qed.

Lemma zeros_length (k : nat) : List.length (zeros k) = k.
Proof. apply repeat_length. Qed.

Lemma read_val_zeros (n : nat) : read_val (zeros n) = 0.
Proof.
  unfold read_val. induction n as [|n IH]; [reflexivity | exact IH].
Qed.

Lemma getRandomInt_zeros (min max : Z) (k : nat) :
  1 <= max - min ->
  (Z.to_nat (bytes_for (max - min)) <= k)%nat ->
  getRandomInt min max (zeros k)
  = Ret min (zeros (k - Z.to_nat (bytes_for (max - min)))).
Proof.
  intros Hr Hk. set (n := Z.to_nat (bytes_for (max - min))) in *.
  replace k with (n + (k - n))%nat at 1 by lia. rewrite zeros_add.
  pose proof (getRandomInt_accepts min max Hr [] (zeros n) (zeros (k - n))) as H.
  cbn [List.concat app] in H. rewrite H.
  - rewrite read_val_zeros, Z.rem_0_l by lia. now rewrite Z.add_0_r.
  - constructor.
  - apply zeros_length.
  - rewrite read_val_zeros. pose proof (threshold_spec _ Hr). lia.
Qed.

(** Whatever was drawn before, the draw returns within two blocks of zero
    bytes. *)
Lemma getRandomInt_productive (min max : Z) :
  1 <= max - min ->
  productive (getRandomInt min max) (2 * Z.to_nat (bytes_for (max - min))).
Proof.
  intros Hr tape. remember (Z.to_nat (bytes_for (max - min))) as n eqn:En.
  assert (Hzero : 0 < threshold (max - min))
    by (pose proof (threshold_spec _ Hr); lia).
  induction tape as [tape IH] using tape_ind. intros k Hk.
  destruct (Nat.le_gt_cases n (List.length tape)) as [Hlen | Hlen].
  - (* the next block lies within the bytes already fixed *)
    assert (Hsplit : exists bs t, tape = (bs ++ t)%list /\ List.length bs = n).
    { exists (firstn n tape), (skipn n tape).
      split; [symmetry; apply firstn_skipn | rewrite length_firstn; lia]. }
    destruct Hsplit as (bs & t & -> & Hf).
    rewrite <- app_assoc, getRandomInt_unfold by assumption.
    rewrite <- En, <- Hf, getRandomValues_app.
    destruct (read_val bs <? threshold (max - min)) eqn:Ea.
    + eexists. exists (t ++ zeros (k - (k - 2 * List.length bs)))%list.
      rewrite <- app_assoc, <- zeros_add.
      replace (k - (k - 2 * List.length bs) + (k - 2 * List.length bs))%nat
        with k by lia.
      reflexivity.
    + rewrite Hf. apply IH; [|exact Hk].
      rewrite length_app.
      destruct bs; [|cbn; lia]. apply Z.ltb_ge in Ea.
      change (read_val []) with 0 in Ea. lia.
  - (* the next block runs into the zero bytes *)
    remember (n - List.length tape)%nat as d eqn:Ed.
    assert (Hz : zeros k = (zeros d ++ zeros (k - d))%list)
      by (rewrite <- zeros_add; f_equal; lia).
    rewrite Hz, app_assoc.
    assert (Hb : List.length (tape ++ zeros d)%list = n)
      by (rewrite length_app, zeros_length; lia).
    rewrite getRandomInt_unfold by assumption.
    rewrite <- En, <- Hb, getRandomValues_app, Hb.
    destruct (read_val (tape ++ zeros d)%list <? threshold (max - min)).
    + eexists. exists (zeros (k - d - (k - 2 * n))).
      rewrite <- zeros_add.
      replace (k - d - (k - 2 * n) + (k - 2 * n))%nat with (k - d)%nat by lia.
      reflexivity.
    + rewrite getRandomInt_zeros by (try assumption; rewrite <- En; lia).
      rewrite <- En.
      eexists. exists (zeros (k - d - n - (k - 2 * n))).
      rewrite <- zeros_add.
      replace (k - d - n - (k - 2 * n) + (k - 2 * n))%nat
        with (k - d - n)%nat by lia.
      reflexivity.
Qed.

(** * Rules for computations *)

Lemma spec_ret {A : Type} (a : A) (Q : A -> Prop) (E : Error -> Prop) :
  Q a -> spec (ret a) Q E.
Proof. intros H tape. exact H. Qed.

Lemma spec_throw {A : Type} (e : Error) (Q : A -> Prop) (E : Error -> Prop) :
  E e -> spec (throw e) Q E.
Proof. intros H tape. exact H. Qed.

Lemma spec_bind {A B : Type} (m : M A) (k : A -> M B)
      (P : A -> Prop) (Q : B -> Prop) (E : Error -> Prop) :
  spec m P E -> (forall a, P a -> spec (k a) Q E) -> spec (bind m k) Q E.
Proof.
  intros Hm Hk tape. unfold bind. specialize (Hm tape).
  destruct (m tape) as [a rest | e |]; [| exact Hm | exact I].
  apply (Hk a Hm rest).
Qed.

Lemma spec_weaken {A : Type} (m : M A) (P Q : A -> Prop) (E E' : Error -> Prop) :
  spec m P E -> (forall a, P a -> Q a) -> (forall e, E e -> E' e) -> spec m Q E'.
Proof.
  intros Hm HQ HE tape. specialize (Hm tape).
  destruct (m tape); auto.
Qed.

Lemma spec_trivial {A : Type} (m : M A) :
  spec m (fun _ => True) (fun _ => True).
Proof. intros tape. destruct (m tape); exact I. Qed.

Lemma spec_returns {A : Type} (m : M A) (Q : A -> Prop) (E : Error -> Prop)
      (tape : list byte) (a : A) (rest : list byte) :
  spec m Q E -> m tape = Ret a rest -> Q a.
Proof. intros H Hr. specialize (H tape). now rewrite Hr in H. Qed.

Lemma spec_throws {A : Type} (m : M A) (Q : A -> Prop) (E : Error -> Prop)
      (tape : list byte) (e : Error) :
  spec m Q E -> m tape = Throw e -> E e.
Proof. intros H Hr. specialize (H tape). now rewrite Hr in H. Qed.

Lemma productive_ret {A : Type} (a : A) : productive (ret a) 0.
Proof.
  intros tape k _. exists a, tape. now rewrite Nat.sub_0_r.
Qed.

Lemma productive_weaken {A : Type} (m : M A) (c c' : nat) :
  productive m c -> (c <= c')%nat -> productive m c'.
Proof.
  intros H Hc tape k Hk. destruct (H tape k) as (a & tape' & E); [lia |].
  exists a, (tape' ++ zeros (c' - c))%list.
  rewrite E, <- app_assoc, <- zeros_add. do 3 f_equal. lia.
Qed.

Lemma productive_bind {A B : Type} (m : M A) (k : A -> M B)
      (P : A -> Prop) (E : Error -> Prop) (c1 c2 : nat) :
  productive m c1 -> spec m P E ->
  (forall a, P a -> productive (k a) c2) ->
  productive (bind m k) (c1 + c2).
Proof.
  intros Hm Hs Hk tape n Hn.
  destruct (Hm tape n) as (a & tape' & E1); [lia |].
  pose proof (spec_returns _ _ _ _ _ _ Hs E1) as Pa.
  destruct (Hk a Pa tape' (n - c1)%nat) as (b & tape'' & E2); [lia |].
  exists b, tape''. unfold bind. rewrite E1, E2. do 3 f_equal. lia.
Qed.

(** A productive computation that never throws has a run that returns. *)
Lemma productive_returns {A : Type} (m : M A) (c : nat) :
  productive m c -> exists tape a rest, m tape = Ret a rest.
Proof.
  intros H. destruct (H [] c) as (a & tape' & E); [lia |].
  now exists ([] ++ zeros c)%list, a, (tape' ++ zeros (c - c))%list.
Qed.

(** * Arrays *)

Section ArrayFacts.
Variable T : Type.

Lemma update_length (a : list (option T)) (i : nat) (v : option T) :
  List.length (update a i v) = List.length a.
Proof.
  revert i. induction a as [|x a IH]; intros [|i]; cbn; auto.
Qed.

Lemma update_perm (a : list (option T)) (j : nat) (x : option T) :
  (j < List.length a)%nat ->
  Permutation (x :: a) (nth j a None :: update a j x).
Proof.
  revert j. induction a as [|y a IH]; intros [|j] Hj; cbn in *; try lia.
  - apply perm_swap.
  - eapply perm_trans; [apply perm_swap |].
    eapply perm_trans; [apply perm_skip, (IH j); lia |]. apply perm_swap.
Qed.

Lemma update_swap_perm (a : list (option T)) (i j : nat) :
  (i < List.length a)%nat -> (j < List.length a)%nat ->
  Permutation a (update (update a i (nth j a None)) j (nth i a None)).
Proof.
  revert i j. induction a as [|x a IH]; intros [|i] [|j] Hi Hj; cbn in *; try lia.
  - apply Permutation_refl.
  - apply update_perm. lia.
  - apply update_perm. lia.
  - apply perm_skip, (IH i j); lia.
Qed.

(** Exchanging two positions of an array rearranges its elements. *)
Lemma swap_perm (a : list (option T)) (i j : Z) :
  0 <= i < Z.of_nat (List.length a) -> 0 <= j < Z.of_nat (List.length a) ->
  Permutation a (swap a i j).
Proof.
  intros Hi Hj. unfold swap, arr_set, arr_get.
  replace (i <? 0) with false by (symmetry; apply Z.ltb_ge; lia).
  replace (j <? 0) with false by (symmetry; apply Z.ltb_ge; lia).
  replace (i <? Z.of_nat (List.length a)) with true by (symmetry; apply Z.ltb_lt; lia).
  rewrite update_length.
  replace (j <? Z.of_nat (List.length a)) with true by (symmetry; apply Z.ltb_lt; lia).
  apply update_swap_perm; lia.
Qed.

Lemma spec_push_loop (body : M (option T)) (P : option T -> Prop)
      (E : Error -> Prop) :
  spec body P E ->
  forall (n : nat) (a : list (option T)),
    spec (push_loop n body a)
         (fun a' => exists xs, a' = (a ++ xs)%list /\ List.length xs = n /\ Forall P xs)
         E.
Proof.
  intros Hb. induction n as [|n IH]; intros a; cbn [push_loop].
  - apply spec_ret. exists []. rewrite app_nil_r. auto.
  - eapply spec_bind; [exact Hb |]. intros x Px.
    eapply spec_weaken; [apply IH | | auto].
    intros a' (xs & -> & Hl & Hxs). exists (x :: xs).
    rewrite <- app_assoc. cbn. auto.
Qed.

Lemma productive_push_loop (body : M (option T)) (c : nat) :
  productive body c ->
  forall (n : nat) (a : list (option T)), productive (push_loop n body a) (n * c).
Proof.
  intros Hb. induction n as [|n IH]; intros a; cbn [push_loop].
  - apply productive_ret.
  - cbn [Nat.mul].
    apply productive_bind with (P := fun _ => True) (E := fun _ => True).
    + exact Hb.
    + apply spec_trivial.
    + intros x _. apply IH.
Qed.

(** The shuffle rearranges the array: each drawn index is a position. *)
Lemma spec_shuffle_loop (k : nat) :
  forall result : list (option T),
    (k < List.length result)%nat \/ k = O ->
    Z.of_nat (List.length result) <= 2 ^ 24 ->
    spec (shuffle_loop k result) (Permutation result) never.
Proof.
  induction k as [|k IH]; intros result Hk Hlen; cbn [shuffle_loop].
  - apply spec_ret. apply Permutation_refl.
  - destruct Hk as [Hk | Hk]; [|discriminate].
    eapply spec_bind; [apply getRandomInt_in_range; lia |].
    intros j Hj. cbv beta in Hj.
    assert (Hp : Permutation result (swap result (Z.of_nat (S k)) j))
      by (apply swap_perm; lia).
    eapply spec_weaken; [apply IH | | auto].
    + left. rewrite <- (Permutation_length Hp). lia.
    + rewrite <- (Permutation_length Hp). exact Hlen.
    + intros a' Ha. cbv beta in Ha. eapply perm_trans; eassumption.
Qed.

Lemma spec_shuffle (array : list (option T)) :
  Z.of_nat (List.length array) <= 2 ^ 24 ->
  spec (shuffle array) (Permutation array) never.
Proof.
  intros H. unfold shuffle. apply spec_shuffle_loop; [|exact H].
  destruct array; cbn; [right; reflexivity | left; lia].
Qed.

Lemma productive_shuffle_loop (k : nat) :
  exists c, forall result : list (option T), productive (shuffle_loop k result) c.
Proof.
  induction k as [|k [c IH]]; cbn [shuffle_loop].
  - exists O. intros result. apply productive_ret.
  - exists (2 * Z.to_nat (bytes_for (Z.of_nat (S k) + 1 - 0)) + c)%nat.
    intros result.
    apply productive_bind with (P := fun _ => True) (E := fun _ => True).
    + apply getRandomInt_productive. lia.
    + apply spec_trivial.
    + intros j _. apply IH.
Qed.

Lemma productive_shuffle (array : list (option T)) :
  exists c, productive (shuffle array) c.
Proof.
  destruct (productive_shuffle_loop (List.length array - 1)) as [c H].
  exists c. apply H.
Qed.

End ArrayFacts.

(** * Strings and counts *)

Lemma get_in (s : string) (n : nat) (c : ascii) :
  String.get n s = Some c -> In c (list_ascii_of_string s).
Proof.
  revert n. induction s as [|a s IH]; intros [|n] H; cbn in *; try discriminate.
  - injection H as ->. now left.
  - right. eapply IH. exact H.
Qed.

Lemma get_lt (s : string) (n : nat) :
  (n < String.length s)%nat -> exists c, String.get n s = Some c.
Proof.
  revert n. induction s as [|a s IH]; intros [|n] H; cbn in *; try lia.
  - now exists a.
  - apply IH. lia.
Qed.

Lemma str_index_some (s : string) (i : Z) (t : string) :
  str_index s i = Some t ->
  exists c, t = String c EmptyString /\ In c (list_ascii_of_string s).
Proof.
  unfold str_index. destruct (i <? 0); [discriminate |].
  destruct (String.get (Z.to_nat i) s) as [c|] eqn:E; [|discriminate].
  intros H. injection H as <-. exists c. split; [reflexivity |].
  eapply get_in. exact E.
Qed.

Lemma str_index_in_range (s : string) (i : Z) :
  0 <= i < strlen s ->
  exists c, str_index s i = Some (String c EmptyString) /\
            In c (list_ascii_of_string s).
Proof.
  intros H. unfold str_index, strlen in *.
  replace (i <? 0) with false by (symmetry; apply Z.ltb_ge; lia).
  destruct (get_lt s (Z.to_nat i)) as [c E]; [lia |].
  rewrite E. exists c. split; [reflexivity |]. eapply get_in. exact E.
Qed.

Lemma in_class_spec (cls : string) (c : ascii) :
  in_class cls c = true <-> In c (list_ascii_of_string cls).
Proof.
  unfold in_class. rewrite existsb_exists. split.
  - intros (x & Hx & E). apply Ascii.eqb_eq in E. now subst.
  - intros H. exists c. split; [exact H | apply Ascii.eqb_refl].
Qed.

Lemma replace_similar_in (s : string) (c : ascii) :
  In c (list_ascii_of_string (replace_similar s)) ->
  In c (list_ascii_of_string s) /\ SIMILAR_CHARS c = false.
Proof.
  induction s as [|a s IH]; cbn [replace_similar list_ascii_of_string].
  - intros [].
  - destruct (SIMILAR_CHARS a) eqn:Ea.
    + intros H. destruct (IH H). split; [now right | assumption].
    + intros [<- | H].
      * split; [now left | assumption].
      * destruct (IH H). split; [now right | assumption].
Qed.

Lemma count_chars_append (p : ascii -> bool) (s t : string) :
  count_chars p (s ++ t) = (count_chars p s + count_chars p t)%nat.
Proof.
  induction s as [|a s IH]; cbn; [reflexivity |]. rewrite IH. lia.
Qed.

Lemma count_elems_cons (p : ascii -> bool) (x : option string)
      (a : list (option string)) :
  count_elems p (x :: a) = (count_chars p (default "" x) + count_elems p a)%nat.
Proof. reflexivity. Qed.

(** Joining with the empty separator keeps every character of every
    element and adds none. *)
Lemma count_join (p : ascii -> bool) (a : list (option string)) :
  count_chars p (Array_join "" a) = count_elems p a.
Proof.
  induction a as [|x a IH]; [reflexivity |].
  destruct a as [|y a].
  - cbn. lia.
  - change (Array_join "" (x :: y :: a))
      with (default "" x ++ "" ++ Array_join "" (y :: a)).
    rewrite count_chars_append. cbn [append]. rewrite IH.
    now rewrite (count_elems_cons p x).
Qed.

Lemma count_elems_app (p : ascii -> bool) (a b : list (option string)) :
  count_elems p (a ++ b) = (count_elems p a + count_elems p b)%nat.
Proof.
  induction a as [|x a IH]; [reflexivity |].
  rewrite <- app_comm_cons, !count_elems_cons, IH. lia.
Qed.

(** Rearranging an array changes no count. *)
Lemma count_elems_perm (p : ascii -> bool) (a b : list (option string)) :
  Permutation a b -> count_elems p a = count_elems p b.
Proof.
  induction 1; rewrite ?count_elems_cons; lia.
Qed.

(** Elements that are all single characters of a class count in full. *)
Lemma count_elems_all (p : ascii -> bool) (a : list (option string)) :
  Forall (char_with p) a -> count_elems p a = List.length a.
Proof.
  induction 1 as [|x a (c & -> & Hc) _ IH]; [reflexivity |].
  rewrite count_elems_cons, IH. cbn. now rewrite Hc.
Qed.

Lemma count_elems_none (p : ascii -> bool) (a : list (option string)) :
  Forall (free_of p) a -> count_elems p a = O.
Proof.
  induction 1 as [|x a Hx _ IH]; [reflexivity |].
  unfold free_of in Hx. now rewrite count_elems_cons, Hx, IH.
Qed.

(** ** What a drawn element can be *)

Lemma drawn_char (s : string) (x : option string) :
  drawn_from s x -> strlen s <= 2 ^ 24 ->
  exists c, x = Some (String c EmptyString) /\ In c (list_ascii_of_string s).
Proof.
  intros (i & -> & Hi) Hs. apply str_index_in_range. auto.
Qed.

Lemma drawn_none_or_char (s : string) (x : option string) :
  drawn_from s x ->
  x = None \/
  exists c, x = Some (String c EmptyString) /\ In c (list_ascii_of_string s).
Proof.
  intros (i & -> & _). destruct (str_index s i) as [t|] eqn:E; [right | now left].
  destruct (str_index_some _ _ _ E) as (c & -> & Hc). now exists c.
Qed.

Lemma pick_source_nonempty (this : PasswordGenerator) (source : string) :
  0 < strlen source -> 0 < strlen (pick_source this source).
Proof.
  intros H. unfold pick_source. cbv zeta.
  destruct (strlen _ =? 0) eqn:E; [exact H |].
  apply Z.eqb_neq in E. unfold strlen in *. lia.
Qed.

(** With the exclusion on, the indexed string holds no similar character
    unless the filter would leave nothing. *)
Lemma pick_source_filtered (this : PasswordGenerator) (source : string) (c : ascii) :
  truthy_bool (Opt.excludeSimilar (Gen.options this)) = true ->
  0 < strlen (replace_similar source) ->
  In c (list_ascii_of_string (pick_source this source)) ->
  In c (list_ascii_of_string source) /\ SIMILAR_CHARS c = false.
Proof.
  intros Hx Hne. unfold pick_source. rewrite Hx. cbv zeta.
  replace (strlen (replace_similar source) =? 0) with false
    by (symmetry; apply Z.eqb_neq; lia).
  apply replace_similar_in.
Qed.

Lemma pick_source_subset (this : PasswordGenerator) (source : string) (c : ascii) :
  In c (list_ascii_of_string (pick_source this source)) ->
  In c (list_ascii_of_string source).
Proof.
  unfold pick_source. cbv zeta.
  destruct (strlen _ =? 0); [auto |].
  destruct (truthy_bool _); [|auto].
  intros H. now apply replace_similar_in in H.
Qed.

(** ** The draw and [pick] *)

Lemma getRandomInt_index (max : Z) :
  1 <= max ->
  spec (getRandomInt 0 max) (fun v => max <= 2 ^ 24 -> 0 <= v < max) never.
Proof.
  intros H. destruct (Z_le_gt_dec max (2 ^ 24)) as [Hs | Hl].
  - eapply spec_weaken; [apply getRandomInt_in_range; lia | auto | auto].
  - intros tape. destruct (getRandomInt 0 max tape) as [v rest | e |] eqn:E.
    + lia.
    + exfalso. apply (getRandomInt_safe 0 max) with (2 := E). lia.
    + exact I.
Qed.

Lemma spec_pick (this : PasswordGenerator) (source : string) :
  0 < strlen source ->
  spec (pick this source) (drawn_from (pick_source this source)) never.
Proof.
  intros H. pose proof (pick_source_nonempty this source H) as Hp.
  unfold pick, pick_source in *. cbv zeta in *.
  destruct (strlen _ =? 0).
  - eapply spec_bind; [apply getRandomInt_index; lia |].
    intros i Hi. apply spec_ret. exists i. auto.
  - eapply spec_bind; [apply getRandomInt_index; lia |].
    intros i Hi. apply spec_ret. exists i. auto.
Qed.

Lemma productive_pick (this : PasswordGenerator) (source : string) :
  0 < strlen source -> exists c, productive (pick this source) c.
Proof.
  intros H. pose proof (pick_source_nonempty this source H) as Hp.
  unfold pick, pick_source in *. cbv zeta in *.
  destruct (strlen _ =? 0).
  - eexists. apply productive_bind with (P := fun _ => True) (E := fun _ => True).
    + apply getRandomInt_productive. lia.
    + apply spec_trivial.
    + intros i _. apply productive_ret.
  - eexists. apply productive_bind with (P := fun _ => True) (E := fun _ => True).
    + apply getRandomInt_productive. lia.
    + apply spec_trivial.
    + intros i _. apply productive_ret.
Qed.

(** * Generation *)

Lemma iterations_num (start z : Z) : iterations start (num z) = Z.to_nat (z - start).
Proof. unfold iterations, num. now rewrite Qceiling_Z. Qed.

Lemma num_gt_num (a b : Z) : num_gt (num a) (num b) = true <-> b < a.
Proof.
  unfold num_gt, num. rewrite num_lt_spec, <- Zlt_Qlt. reflexivity.
Qed.

Lemma num_gt_num_false (a b : Z) : num_gt (num a) (num b) = false <-> a <= b.
Proof.
  unfold num_gt, num. rewrite num_lt_false, <- Zle_Qle. reflexivity.
Qed.

Lemma spec_never {A : Type} (m : M A) (Q : A -> Prop) (E : Error -> Prop) :
  spec m Q never -> spec m Q E.
Proof.
  intros H. eapply spec_weaken; [exact H | auto | intros e []].
Qed.

Lemma LOWER_nonempty : 0 < strlen LOWER. Proof. reflexivity. Qed.
Lemma UPPER_nonempty : 0 < strlen UPPER. Proof. reflexivity. Qed.
Lemma DIGITS_nonempty : 0 < strlen DIGITS. Proof. reflexivity. Qed.
Lemma SPECIAL_nonempty : 0 < strlen SPECIAL. Proof. reflexivity. Qed.

Section GeneratorFacts.

Variable DEFAULT_WORDLIST : list string.
Context {F : Type} {float64 : Float64 F}.

(** What [generateRandom] returns and when it throws, for a generator with
    an integer length of at most 128 and a non-empty alphabet. *)
Lemma spec_generateRandom (this : PasswordGenerator) (z : Z) :
  Gen.length this = num z -> 0 <= z <= 128 -> 0 < strlen (Gen.charset this) ->
  spec (generateRandom this)
       (fun r =>
          Z.of_nat (required_count this) <= z /\
          exists chars shuffled : list (option string),
            assembled this chars /\
            List.length chars = Z.to_nat z /\
            Permutation chars shuffled /\
            password r = Array_join "" shuffled /\
            entropy r = calculateEntropy this /\
            strength r = getStrengthLevel (entropy r))
       (fun e => e = MinimumsExceedLength /\ z < Z.of_nat (required_count this)).
Proof.
  intros Hlen Hz Hcs. unfold generateRandom. cbv zeta.
  eapply spec_bind;
    [apply spec_never, spec_push_loop, spec_pick, LOWER_nonempty |].
  intros r1 (lower & -> & L1 & F1).
  eapply spec_bind;
    [apply spec_never, spec_push_loop, spec_pick, UPPER_nonempty |].
  intros r2 (upper & -> & L2 & F2).
  eapply spec_bind;
    [apply spec_never, spec_push_loop, spec_pick, DIGITS_nonempty |].
  intros r3 (digit & -> & L3 & F3).
  eapply spec_bind;
    [apply spec_never, spec_push_loop, spec_pick, SPECIAL_nonempty |].
  intros r4 (special & -> & L4 & F4).
  cbn [app].
  assert (Hreq : List.length (((lower ++ upper) ++ digit) ++ special)%list
                 = required_count this).
  { rewrite !length_app, L1, L2, L3, L4. reflexivity. }
  rewrite Hreq, Hlen.
  destruct (num_gt (num (Z.of_nat (required_count this))) (num z)) eqn:Egt.
  - apply spec_throw. apply num_gt_num in Egt. split; [reflexivity | exact Egt].
  - apply num_gt_num_false in Egt.
    eapply spec_bind;
      [apply spec_never, spec_push_loop, spec_pick, Hcs |].
    intros r5 (fill & -> & L5 & F5).
    assert (Hall : List.length
                     ((((lower ++ upper) ++ digit) ++ special) ++ fill)%list
                   = Z.to_nat z).
    { rewrite length_app, Hreq, L5, iterations_num. lia. }
    eapply spec_bind; [apply spec_never, spec_shuffle; rewrite Hall; lia |].
    intros shuffled Hperm. apply spec_ret.
    split; [exact Egt |].
    exists ((((lower ++ upper) ++ digit) ++ special) ++ fill)%list, shuffled.
    repeat split; auto.
    exists lower, upper, digit, special, fill.
    rewrite <- Hlen in L5. rewrite <- !app_assoc. repeat split; auto.
Qed.

(** With minimums that fit, [generateRandom] returns whatever the source
    produced before, as soon as it goes on with enough zero bytes. *)
Lemma productive_generateRandom (this : PasswordGenerator) (z : Z) :
  Gen.length this = num z -> 0 <= z <= 128 -> 0 < strlen (Gen.charset this) ->
  Z.of_nat (required_count this) <= z ->
  exists c, productive (generateRandom this) c.
Proof.
  intros Hlen Hz Hcs Hfit.
  destruct (productive_pick this LOWER LOWER_nonempty) as [c1 P1].
  destruct (productive_pick this UPPER UPPER_nonempty) as [c2 P2].
  destruct (productive_pick this DIGITS DIGITS_nonempty) as [c3 P3].
  destruct (productive_pick this SPECIAL SPECIAL_nonempty) as [c4 P4].
  destruct (productive_pick this (Gen.charset this) Hcs) as [c5 P5].
  destruct (productive_shuffle_loop string (Z.to_nat z - 1))
    as [c6 P6].
  eexists. unfold generateRandom. cbv zeta.
  eapply productive_bind;
    [apply productive_push_loop, P1
    | apply spec_push_loop, spec_pick, LOWER_nonempty |].
  intros r1 (lower & -> & L1 & _).
  eapply productive_bind;
    [apply productive_push_loop, P2
    | apply spec_push_loop, spec_pick, UPPER_nonempty |].
  intros r2 (upper & -> & L2 & _).
  eapply productive_bind;
    [apply productive_push_loop, P3
    | apply spec_push_loop, spec_pick, DIGITS_nonempty |].
  intros r3 (digit & -> & L3 & _).
  eapply productive_bind;
    [apply productive_push_loop, P4
    | apply spec_push_loop, spec_pick, SPECIAL_nonempty |].
  intros r4 (special & -> & L4 & _).
  cbn [app].
  assert (Hreq : List.length (((lower ++ upper) ++ digit) ++ special)%list
                 = required_count this).
  { rewrite !length_app, L1, L2, L3, L4. reflexivity. }
  rewrite Hreq, Hlen.
  replace (num_gt (num (Z.of_nat (required_count this))) (num z)) with false
    by (symmetry; now apply num_gt_num_false).
  eapply productive_bind;
    [apply productive_push_loop, P5
    | apply spec_push_loop, spec_pick, Hcs |].
  intros r5 (fill & -> & L5 & _).
  assert (Hall : List.length
                   ((((lower ++ upper) ++ digit) ++ special) ++ fill)%list
                 = Z.to_nat z).
  { rewrite length_app, Hreq, L5, iterations_num. lia. }
  eapply productive_bind with (P := fun _ => True);
    [unfold shuffle; rewrite Hall; apply P6 | apply spec_trivial |].
  intros shuffled _. apply productive_ret.
Qed.

(** ** Passphrases *)

Lemma spec_word_draw (wl : list string) :
  spec (index <- getRandomInt 0 (Z.of_nat (List.length wl)) ;;
        ret (list_index wl index))
       (drawn_word wl)
       (fun e => e = RangeError /\ wl = []).
Proof.
  destruct wl as [|w wl].
  - intros tape. cbn. auto.
  - apply spec_never. eapply spec_bind.
    + apply getRandomInt_index. cbn [List.length]. lia.
    + intros i Hi. apply spec_ret. exists i. auto.
Qed.


(** What [generatePassphrase] returns, and that it throws only on an empty
    word source. *)
Lemma spec_generatePassphrase (this : PasswordGenerator) :
  spec (generatePassphrase DEFAULT_WORDLIST this)
       (fun r =>
          exists words : list (option string),
            List.length words = iterations 0 (Gen.length this) /\
            Forall (drawn_word (getWordlist DEFAULT_WORDLIST this)) words /\
            password r
            = Array_join (or_str (Opt.separator (Gen.options this)) "-") words /\
            entropy r = calculatePassphraseEntropy DEFAULT_WORDLIST this /\
            strength r = getStrengthLevel (entropy r))
       (fun e => e = RangeError /\ getWordlist DEFAULT_WORDLIST this = []).
Proof.
  unfold generatePassphrase. cbv zeta.
  eapply spec_bind; [apply spec_push_loop, spec_word_draw |].
  intros r (words & -> & Hl & Hw). apply spec_ret.
  exists words. cbn [app]. auto.
Qed.


End GeneratorFacts.

(** * The claims on sampling *)

(** C3, at the failing input: for the range [2^24 + 1] the routine reads four
    bytes, the 32-bit shift of the block [80 00 00 00] wraps to [-2^31], the
    block is accepted and the result is negative, outside [[0, range)]. *)
Theorem getRandomInt_wraps_on_four_bytes :
  bytes_for 16777217 = 4 /\
  be_value [Byte.x80; Byte.x00; Byte.x00; Byte.x00] = 2 ^ 31 /\
  read_val [Byte.x80; Byte.x00; Byte.x00; Byte.x00] = - 2 ^ 31 /\
  getRandomInt 0 16777217 [Byte.x80; Byte.x00; Byte.x00; Byte.x00]
  = Ret (-16777089) [] /\
  ~ (0 <= -16777089 < 16777217).
Proof.
  repeat split; try (vm_compute; reflexivity). lia.
Qed.

(** Among the values below the acceptance bound, the preimages of a residue
    are the sums of the residue and a multiple of the range below the bound. *)
Lemma accepted_values_uniform (range : Z) :
  1 <= range ->
  forall k v : Z,
    0 <= k < range ->
    (0 <= v < threshold range /\ v mod range = k <->
     exists q, 0 <= q < 256 ^ bytes_for range / range /\ v = q * range + k).
Proof.
  intros Hr k v Hk. destruct (threshold_spec _ Hr) as [-> _].
  set (n := 256 ^ bytes_for range / range). split.
  - intros [Hv Hm]. exists (v / range).
    pose proof (Z.div_mod v range ltac:(lia)) as Hdm.
    split; [|lia].
    split; [apply Z.div_pos; lia |].
    apply Z.div_lt_upper_bound; [lia |]. lia.
  - intros (q & Hq & ->). split; [nia |].
    rewrite Z.add_comm, Z.mod_add by lia. apply Z.mod_small. lia.
Qed.

Section SamplingClaims.

Variable DEFAULT_WORDLIST : list string.
Context {F : Type} {float64 : Float64 F}.

Lemma generateFull_random (g : PasswordGenerator) :
  Gen.mode g = random -> generateFull DEFAULT_WORDLIST g = generateRandom g.
Proof. intros H. unfold generateFull. now rewrite H. Qed.

Lemma generateFull_passphrase (g : PasswordGenerator) :
  Gen.mode g = passphrase ->
  generateFull DEFAULT_WORDLIST g = generatePassphrase DEFAULT_WORDLIST g.
Proof. intros H. unfold generateFull. now rewrite H. Qed.

(** The specification of [generateRandom] for a constructed generator. *)
Lemma spec_constructed_random (options : PasswordOptions) (g : PasswordGenerator) :
  constructor options = inr g -> Gen.mode g = random ->
  exists z : Z,
    Gen.length g = num z /\ 8 <= z <= 128 /\ 0 < strlen (Gen.charset g) /\
    spec (generateFull DEFAULT_WORDLIST g)
         (fun r =>
            Z.of_nat (required_count g) <= z /\
            exists chars shuffled : list (option string),
              assembled g chars /\
              List.length chars = Z.to_nat z /\
              Permutation chars shuffled /\
              password r = Array_join "" shuffled /\
              entropy r = calculateEntropy g /\
              strength r = getStrengthLevel (entropy r))
         (fun e => e = MinimumsExceedLength /\ z < Z.of_nat (required_count g)).
Proof.
  intros Hc Hm.
  destruct (constructor_random _ _ Hc Hm) as (q & _ & _ & _ & Hl & Hz & Hcs).
  exists (Qfloor q). repeat split; try assumption; try lia.
  rewrite (generateFull_random _ Hm).
  apply spec_generateRandom; [assumption | lia | assumption].
Qed.


(** C10. With the empty string as separator the words are joined with "-",
    and the passphrase generator behaves on every source as the one built
    from the same request without a separator. *)
Theorem empty_separator_joins_with_dash :
  forall (options : PasswordOptions) (g : PasswordGenerator)
         (tape : list byte) (r : PasswordResult F) (rest : list byte),
    constructor options = inr g ->
    Gen.mode g = passphrase ->
    Opt.separator options = Some "" ->
    generateFull DEFAULT_WORDLIST g tape = Ret r rest ->
    (exists words : list (option string),
       List.length words = iterations 0 (Gen.length g) /\
       Forall (drawn_word (getWordlist DEFAULT_WORDLIST g)) words /\
       password r = Array_join "-" words) /\
    (exists g',
       constructor (with_separator options None) = inr g' /\
       generateFull DEFAULT_WORDLIST g' tape = Ret r rest).
Proof.
  intros options g tape r rest Hc Hm Hsep Hr.
  assert (Hps : forall o, Opt.separator (preset_object o) = None).
  { intros o. unfold preset_object. destruct (truthy_str _); [|reflexivity].
    unfold PRESETS. repeat (destruct (String.eqb _ _); [reflexivity |]).
    reflexivity. }
  assert (Hgs : Opt.separator (Gen.options g) = Some "").
  { rewrite (constructor_options _ _ Hc). unfold resolved_options.
    cbn [spread Opt.separator]. now rewrite Hps, Hsep. }
  split.
  - rewrite (generateFull_passphrase _ Hm) in Hr.
    destruct (spec_returns _ _ _ _ _ _ (spec_generatePassphrase DEFAULT_WORDLIST g) Hr)
      as (words & Hl & Hw & Hp & _).
    exists words. rewrite Hgs in Hp. auto.
  - pose proof (constructor_mode _ _ Hc) as Hmode. rewrite Hm in Hmode.
    unfold constructor in Hc |- *.
    assert (Hpo : preset_object (with_separator options None) = preset_object options)
      by reflexivity.
    rewrite Hpo. unfold resolved_options in Hmode.
    assert (Hmode' : default random
                       (Opt.mode (spread (with_separator options None)
                                         (preset_object options))) = passphrase)
      by (rewrite Hmode; reflexivity).
    cbv zeta in *. rewrite Hmode'. rewrite <- Hmode in Hc.
    change (Opt.length (spread (with_separator options None) (preset_object options)))
      with (Opt.length (spread options (preset_object options))).
    destruct (num_lt _ _ || num_gt _ _); [discriminate Hc |].
    injection Hc as <-. eexists. split; [reflexivity |].
    revert Hr. unfold generateFull, generatePassphrase, getWordlist,
      calculatePassphraseEntropy, getWordlist.
    cbn [Gen.mode Gen.options Gen.length spread Opt.separator Opt.wordlist
         with_separator].
    rewrite Hps, Hsep. cbn [over or_str]. auto.
Qed.

End SamplingClaims.


(** C9, at the failing input [{ mode: "passphrase", wordlist: [] }]: the
    empty list is kept as the word source in place of the built-in list, and
    generation throws on the first draw, whatever the random source. *)
Theorem empty_wordlist_is_sampled :
  exists g,
    constructor request_empty_wordlist = inr g /\
    (forall dw : list string, getWordlist dw g = []) /\
    (forall (dw : list string) (tape : list byte),
       generateFull (F := number) dw g tape = Throw RangeError).
Proof.
  destruct (constructor request_empty_wordlist) as [e | g] eqn:Hc;
    [vm_compute in Hc; discriminate Hc |].
  exists g. split; [reflexivity |].
  vm_compute in Hc. injection Hc as <-. split; reflexivity.
Qed.

Lemma empty_separator_joins_with_dash_witness :
  exists g r rest,
    constructor request_empty_separator = inr g /\
    generateFull (F := number) sample_wordlist g
                 [Byte.x01; Byte.x02; Byte.x03] = Ret r rest /\
    exists words : list (option string),
      List.length words = iterations 0 (Gen.length g) /\
      password r = Array_join "-" words.
Proof.
  destruct (constructor request_empty_separator) as [e | g] eqn:Hc;
    [vm_compute in Hc; discriminate Hc |].
  assert (Hm : Gen.mode g = passphrase)
    by (vm_compute in Hc; injection Hc as <-; reflexivity).
  destruct (generateFull (F := number) sample_wordlist g
                         [Byte.x01; Byte.x02; Byte.x03]) as [r rest | e |] eqn:Hr;
    [| exfalso; vm_compute in Hc; injection Hc as <-; vm_compute in Hr;
       discriminate Hr ..].
  exists g, r, rest. split; [reflexivity |]. split; [exact Hr |].
  destruct (empty_separator_joins_with_dash sample_wordlist
              request_empty_separator g _ r rest Hc Hm eq_refl Hr)
    as [(words & Hl & Hw & Hp) _].
  exists words. split; assumption.
Defined.

(** * The claims on random-mode passwords *)

Lemma replace_similar_length (s : string) :
  strlen (replace_similar s) <= strlen s.
Proof.
  unfold strlen. induction s as [|a s IH]; cbn [replace_similar]; [lia |].
  destruct (SIMILAR_CHARS a); cbn [String.length]; lia.
Qed.

Lemma pick_source_length (this : PasswordGenerator) (source : string) :
  strlen (pick_source this source) <= strlen source.
Proof.
  unfold pick_source. cbv zeta. destruct (strlen _ =? 0); [lia |].
  destruct (truthy_bool _); [apply replace_similar_length | lia].
Qed.

(** A character drawn for a class of at most [2^24] characters is a
    character of that class. *)
Lemma drawn_in_class (this : PasswordGenerator) (source : string)
      (xs : list (option string)) :
  strlen source <= 2 ^ 24 ->
  Forall (drawn_from (pick_source this source)) xs ->
  Forall (char_with (in_class source)) xs.
Proof.
  intros Hs H. eapply Forall_impl; [|exact H].
  intros x Hx. pose proof (pick_source_length this source) as Hl.
  destruct (drawn_char _ _ Hx) as (c & -> & Hc); [lia |].
  exists c. split; [reflexivity |].
  apply in_class_spec. eapply pick_source_subset. exact Hc.
Qed.

Lemma iterations_covers (q : Q) (n : nat) :
  (iterations 0 (Num q) <= n)%nat -> (q <= inject_Z (Z.of_nat n))%Q.
Proof.
  intros H. cbn [iterations] in H.
  apply Qle_trans with (inject_Z (Qceiling q)); [apply Qle_ceiling |].
  rewrite <- Zle_Qle. lia.
Qed.

(** The effective minimum of a numeric request is a number that is not
    below the request. *)
Lemma actualMin_numeric (this : PasswordGenerator) (requested : option number)
      (m : Q) :
  default (num 0) requested = Num m ->
  exists q : Q, actualMin this requested = Num q /\ (m <= q)%Q.
Proof.
  intros Hm. unfold actualMin. cbv zeta. rewrite Hm.
  destruct (negb _ && _).
  - unfold Math_max, num. destruct (Qle_bool m (inject_Z 1)) eqn:E.
    + exists (inject_Z 1). split; [reflexivity |]. now apply Qle_bool_iff.
    + exists m. split; [reflexivity | apply Qle_refl].
  - exists m. split; [reflexivity | apply Qle_refl].
Qed.

Lemma iterations_default (this : PasswordGenerator) (requested : option number) :
  truthy_str (Opt.customCharset (Gen.options this)) = false ->
  default true (Opt.isSpecial (Gen.options this)) = true ->
  default (num 0) requested <> NaN ->
  (1 <= iterations 0 (actualMin this requested))%nat.
Proof.
  intros Hc Hs Hn. unfold actualMin. cbv zeta. rewrite Hc, Hs. cbn [negb andb].
  destruct (default (num 0) requested) as [|q]; [congruence |].
  unfold Math_max, num. destruct (Qle_bool q (inject_Z 1)) eqn:E; cbn [iterations].
  - rewrite Qceiling_Z. lia.
  - assert (H : (inject_Z 1 < q)%Q).
    { apply Qnot_le_lt. intros H. apply Qle_bool_iff in H. congruence. }
    pose proof (Qle_ceiling q) as Hq.
    assert (H1 : (inject_Z 1 < inject_Z (Qceiling q))%Q)
      by (eapply Qlt_le_trans; eassumption).
    rewrite <- Zlt_Qlt in H1. lia.
Qed.

Lemma preset_object_cases (o : PasswordOptions) :
  preset_object o = Opt.empty \/ preset_object o = preset_wifi \/
  preset_object o = preset_enterprise \/ preset_object o = preset_legacy \/
  preset_object o = preset_ultra.
Proof.
  unfold preset_object. destruct (truthy_str _); [|auto].
  unfold PRESETS. repeat (destruct (String.eqb _ _); [cbn; auto 6 |]).
  cbn. auto.
Qed.

(** An exclusion asked for by the request survives the merge with any
    preset. *)
Lemma excludeSimilar_resolved (options : PasswordOptions) :
  truthy_bool (Opt.excludeSimilar options) = true ->
  Opt.excludeSimilar (resolved_options options) = Some true.
Proof.
  intros H. unfold resolved_options. cbn [spread Opt.excludeSimilar].
  destruct (Opt.excludeSimilar options) as [[|]|]; try discriminate H.
  destruct (preset_object_cases options) as [-> | [-> | [-> | [-> | ->]]]];
    reflexivity.
Qed.

Lemma constructor_excluded (options : PasswordOptions) (g : PasswordGenerator) :
  constructor options = inr g -> Gen.mode g = random ->
  Opt.excludeSimilar (resolved_options options) = Some true ->
  exists base, Gen.charset g = replace_similar base.
Proof.
  intros H Hm Hx. pose proof (constructor_mode _ _ H) as Hmode.
  rewrite Hm in Hmode. revert H.
  unfold constructor, resolved_options in *. cbv zeta. rewrite <- Hmode, Hx.
  cbn [default]. intros H.
  split_constructor H; try discriminate H; injection H as <-;
    eexists; reflexivity.
Qed.


Section RandomClaims.

Variable DEFAULT_WORDLIST : list string.
Context {F : Type} {float64 : Float64 F}.

Lemma class_count (g : PasswordGenerator) (cls : string)
      (lower upper digit special fill shuffled seg : list (option string)) :
  Permutation (lower ++ upper ++ digit ++ special ++ fill)%list shuffled ->
  In seg [lower; upper; digit; special] ->
  Forall (char_with (in_class cls)) seg ->
  (List.length seg <= count_chars (in_class cls) (Array_join "" shuffled))%nat.
Proof.
  intros Hp Hin Hseg. rewrite count_join, <- (count_elems_perm _ _ _ Hp).
  rewrite !count_elems_app.
  cbn in Hin. destruct Hin as [<- | [<- | [<- | [<- | []]]]];
    rewrite (count_elems_all _ _ Hseg); lia.
Qed.

(** X19. For each of the four classes whose requested minimum is a number,
    a random-mode password holds at least that many characters of the class,
    and at least one when no custom alphabet is supplied and special
    characters are enabled. *)
Theorem numeric_minimums_are_met :
  forall (options : PasswordOptions) (g : PasswordGenerator)
         (tape : list byte) (r : PasswordResult F) (rest : list byte),
    constructor options = inr g ->
    Gen.mode g = random ->
    generateFull DEFAULT_WORDLIST g tape = Ret r rest ->
    let o := Gen.options g in
    let custom := truthy_str (Opt.customCharset o) in
    let special := default true (Opt.isSpecial o) in
    holds_minimum custom special (Opt.minLower o)
                  (count_chars (in_class LOWER) (password r)) /\
    holds_minimum custom special (Opt.minUpper o)
                  (count_chars (in_class UPPER) (password r)) /\
    holds_minimum custom special (Opt.minDigit o)
                  (count_chars (in_class DIGITS) (password r)) /\
    holds_minimum custom special (Opt.minSpecial o)
                  (count_chars (in_class SPECIAL) (password r)).
Proof.
  intros options g tape r rest Hc Hm Hr o custom special.
  destruct (spec_constructed_random DEFAULT_WORDLIST _ _ Hc Hm)
    as (z & Hl & Hz & Hcs & Hs).
  destruct (spec_returns _ _ _ _ _ _ Hs Hr)
    as (Hfit & chars & shuffled & Has & Hlen & Hperm & Hpw & _).
  destruct Has as (lower & upper & digit & special' & fill & -> &
                   L1 & L2 & L3 & L4 & _ & F1 & F2 & F3 & F4 & _).
  assert (Hmeet : forall cls requested seg,
             In seg [lower; upper; digit; special'] ->
             strlen cls <= 2 ^ 24 ->
             Forall (drawn_from (pick_source g cls)) seg ->
             List.length seg = iterations 0 (actualMin g requested) ->
             holds_minimum custom special requested
                           (count_chars (in_class cls) (password r))).
  { intros cls requested seg Hin Hcls Hseg Hn m Hreq.
    assert (Hcount : (iterations 0 (actualMin g requested)
                      <= count_chars (in_class cls) (password r))%nat).
    { rewrite Hpw, <- Hn.
      eapply (class_count g); eauto using drawn_in_class. }
    split.
    - destruct (actualMin_numeric g requested m Hreq) as (q & Hq & Hmq).
      rewrite Hq in Hcount. apply Qle_trans with q; [exact Hmq |].
      now apply iterations_covers.
    - intros H1 H2.
      assert (H3 : default (num 0) requested <> NaN) by (rewrite Hreq; discriminate).
      pose proof (iterations_default g requested H1 H2 H3). lia. }
  split; [apply (Hmeet LOWER _ lower); cbn; auto; vm_compute; discriminate |].
  split; [apply (Hmeet UPPER _ upper); cbn; auto; vm_compute; discriminate |].
  split; [apply (Hmeet DIGITS _ digit); cbn; auto; vm_compute; discriminate |].
  apply (Hmeet SPECIAL _ special'); cbn; auto 6; vm_compute; discriminate.
Qed.

(** C5. With [excludeSimilar] set on the request, no character of a
    random-mode password is one of [i l 1 L o 0 O]; the four filtered classes
    are non-empty, so the unfiltered fallback of [pick] is not taken for
    them. *)
Theorem excluded_characters_never_appear :
  forall (options : PasswordOptions) (g : PasswordGenerator)
         (tape : list byte) (r : PasswordResult F) (rest : list byte),
    constructor options = inr g ->
    Gen.mode g = random ->
    truthy_bool (Opt.excludeSimilar options) = true ->
    generateFull DEFAULT_WORDLIST g tape = Ret r rest ->
    count_chars SIMILAR_CHARS (password r) = O /\
    pick_source g LOWER = replace_similar LOWER /\
    pick_source g UPPER = replace_similar UPPER /\
    pick_source g DIGITS = replace_similar DIGITS /\
    pick_source g SPECIAL = replace_similar SPECIAL.
Proof.
  intros options g tape r rest Hc Hm Hx Hr.
  pose proof (excludeSimilar_resolved _ Hx) as Hres.
  assert (Hg : truthy_bool (Opt.excludeSimilar (Gen.options g)) = true)
    by (rewrite (constructor_options _ _ Hc), Hres; reflexivity).
  destruct (constructor_excluded _ _ Hc Hm Hres) as [base Hbase].
  assert (Hsrc : forall s, 0 < strlen (replace_similar s) ->
                           pick_source g s = replace_similar s).
  { intros s Hs. unfold pick_source. rewrite Hg. cbv zeta.
    replace (strlen (replace_similar s) =? 0) with false
      by (symmetry; apply Z.eqb_neq; lia).
    reflexivity. }
  split; [| repeat split; apply Hsrc; reflexivity].
  destruct (spec_constructed_random DEFAULT_WORDLIST _ _ Hc Hm)
    as (z & Hl & Hz & Hcs & Hs).
  destruct (spec_returns _ _ _ _ _ _ Hs Hr)
    as (Hfit & chars & shuffled & Has & Hlen & Hperm & Hpw & _).
  destruct Has as (lower & upper & digit & special & fill & -> &
                   _ & _ & _ & _ & _ & F1 & F2 & F3 & F4 & F5).
  assert (Hfree : forall s xs,
             (forall c, In c (list_ascii_of_string (pick_source g s)) ->
                        SIMILAR_CHARS c = false) ->
             Forall (drawn_from (pick_source g s)) xs ->
             Forall (free_of SIMILAR_CHARS) xs).
  { intros s xs Hok H. eapply Forall_impl; [|exact H].
    intros x Hd. destruct (drawn_none_or_char _ _ Hd) as [-> | (c & -> & Hin)].
    - reflexivity.
    - unfold free_of. cbn [default count_chars]. now rewrite (Hok c Hin). }
  assert (Hclass : forall s, 0 < strlen (replace_similar s) ->
             forall c, In c (list_ascii_of_string (pick_source g s)) ->
                       SIMILAR_CHARS c = false).
  { intros s Hne c Hin. rewrite (Hsrc s Hne) in Hin.
    now apply replace_similar_in in Hin. }
  rewrite Hpw, count_join, <- (count_elems_perm _ _ _ Hperm), !count_elems_app.
  rewrite (count_elems_none _ _ (Hfree LOWER lower (Hclass LOWER eq_refl) F1)).
  rewrite (count_elems_none _ _ (Hfree UPPER upper (Hclass UPPER eq_refl) F2)).
  rewrite (count_elems_none _ _ (Hfree DIGITS digit (Hclass DIGITS eq_refl) F3)).
  rewrite (count_elems_none _ _ (Hfree SPECIAL special (Hclass SPECIAL eq_refl) F4)).
  rewrite (count_elems_none _ _ (Hfree (Gen.charset g) fill
            ltac:(intros c Hin; apply pick_source_subset in Hin;
                  rewrite Hbase in Hin; now apply replace_similar_in in Hin) F5)).
  reflexivity.
Qed.


End RandomClaims.

(** * The theorems at concrete requests *)

Ltac built g Hc :=
  match goal with
  | |- context [constructor ?req] =>
      destruct (constructor req) as [? | g] eqn:Hc;
      [vm_compute in Hc; discriminate Hc |]
  end.

Ltac ran g Hc r rest Hr run :=
  destruct run as [r rest | ? |] eqn:Hr;
  [| exfalso; vm_compute in Hc; injection Hc as <-; vm_compute in Hr;
     discriminate Hr ..].

(** C4, at the failing input [{ length: 12, minLower: NaN }]: the request
    is accepted in the default composition, [Math.max(NaN, 1)] is [NaN], the
    loop for the lowercase class runs no round, and on a source that yields
    the byte 26 throughout the password holds no lowercase letter. *)
Theorem NaN_minimum_loses_the_guarantee :
  exists (g : PasswordGenerator) (r : PasswordResult number) (rest : list byte),
    constructor request_NaN_minimum = inr g /\
    truthy_str (Opt.customCharset (Gen.options g)) = false /\
    default true (Opt.isSpecial (Gen.options g)) = true /\
    actualMin g (Opt.minLower (Gen.options g)) = NaN /\
    generateFull sample_wordlist g (repeat Byte.x1a 23) = Ret r rest /\
    password r = "AAAA6AAAAAA<" /\
    count_chars (in_class LOWER) (password r) = O.
Proof.
  built g Hc.
  ran g Hc r rest Hr (generateFull (F := number) sample_wordlist g
                                   (repeat Byte.x1a 23)).
  exists g, r, rest. vm_compute in Hc. injection Hc as <-.
  vm_compute in Hr. injection Hr as <- <-.
  repeat split; vm_compute; reflexivity.
Qed.

(** [{ length: 16, minDigit: 10 }] on a source of zero bytes: at least ten
    digits and, by the default composition, at least one lowercase letter. *)
Lemma numeric_minimums_are_met_witness :
  exists g r rest,
    constructor request_sixteen_ten_digits = inr g /\
    generateFull (F := number) sample_wordlist g (zeros 40) = Ret r rest /\
    (inject_Z 10 <= inject_Z (Z.of_nat
                      (count_chars (in_class DIGITS) (password r))))%Q /\
    (1 <= count_chars (in_class LOWER) (password r))%nat.
Proof.
  built g Hc.
  assert (Hg : Gen.mode g = random /\
               Gen.options g = request_sixteen_ten_digits)
    by (vm_compute in Hc; injection Hc as <-; split; reflexivity).
  destruct Hg as [Hm Ho].
  ran g Hc r rest Hr (generateFull (F := number) sample_wordlist g (zeros 40)).
  exists g, r, rest. split; [reflexivity |]. split; [exact Hr |].
  pose proof (numeric_minimums_are_met sample_wordlist
                request_sixteen_ten_digits g (zeros 40) r rest Hc Hm Hr) as H.
  cbv zeta in H. rewrite Ho in H. destruct H as (Hlow & _ & Hdig & _).
  split.
  - exact (proj1 (Hdig (inject_Z 10) eq_refl)).
  - exact (proj2 (Hlow (inject_Z 0) eq_refl) eq_refl eq_refl).
Defined.

(** [{ length: 100, excludeSimilar: true }] on a source of zero bytes. *)
Lemma excluded_characters_never_appear_witness :
  exists g r rest,
    constructor request_exclude_similar = inr g /\
    generateFull (F := number) sample_wordlist g (zeros 200) = Ret r rest /\
    count_chars SIMILAR_CHARS (password r) = O.
Proof.
  built g Hc.
  assert (Hm : Gen.mode g = random)
    by (vm_compute in Hc; injection Hc as <-; reflexivity).
  ran g Hc r rest Hr (generateFull (F := number) sample_wordlist g (zeros 200)).
  exists g, r, rest. split; [reflexivity |]. split; [exact Hr |].
  exact (proj1 (excluded_characters_never_appear sample_wordlist
                  request_exclude_similar g (zeros 200) r rest Hc Hm eq_refl Hr)).
Defined.


(** * Further properties of the uniform draw *)

(** X1. For a range of at most [2^24] values, the draw returns [v] and leaves
    [rest] exactly when the tape is a run of rejected blocks, each at or above
    [floor(256^n / range) * range], then one block below that bound whose
    big-endian value reduces to [v - min] modulo the range, then [rest]; the
    result then lies in [[min, max)]. *)
Theorem draw_returns_iff (min max : Z) (tape : list byte) (v : Z)
        (rest : list byte) :
  1 <= max - min <= 2 ^ 24 ->
  (getRandomInt min max tape = Ret v rest <->
   exists (rejected : list (list byte)) (bs : list byte),
     tape = (List.concat rejected ++ bs ++ rest)%list /\
     Forall (fun b => List.length b = Z.to_nat (bytes_for (max - min)) /\
                      256 ^ bytes_for (max - min) / (max - min) * (max - min)
                      <= be_value b)
            rejected /\
     List.length bs = Z.to_nat (bytes_for (max - min)) /\
     be_value bs < 256 ^ bytes_for (max - min) / (max - min) * (max - min) /\
     v = min + be_value bs mod (max - min)) /\
  (getRandomInt min max tape = Ret v rest -> min <= v < max).
Proof.
  intros Hr. assert (Hr1 : 1 <= max - min) by lia.
  pose proof (bytes_for_small _ Hr) as Hn3.
  pose proof (bytes_for_nonneg (max - min)) as Hn0.
  destruct (threshold_spec _ Hr1) as [Hth _].
  assert (Hbe : forall b, List.length b = Z.to_nat (bytes_for (max - min)) ->
                          read_val b = be_value b /\ 0 <= be_value b).
  { intros b Hb. destruct (read_val_be b) as [E B]; [lia |]. split; [exact E | lia]. }
  split; [split |].
  - intros H.
    destruct (getRandomInt_small min max Hr tape v rest H)
      as (rej & bs & H1 & H2 & H3 & H4 & H5 & _).
    exists rej, bs. auto.
  - intros (rej & bs & -> & Hrej & Hl & Hacc & ->).
    destruct (Hbe bs Hl) as [Ebs Hbs0].
    rewrite getRandomInt_accepts; try assumption.
    + rewrite Z.rem_mod_nonneg by lia. now rewrite Ebs.
    + eapply Forall_impl; [|exact Hrej].
      intros b [Hb1 Hb2]. destruct (Hbe b Hb1) as [Eb _].
      split; [exact Hb1 |]. rewrite Hth, Eb. exact Hb2.
    + rewrite Hth, Ebs. exact Hacc.
  - intros H.
    now destruct (getRandomInt_small min max Hr tape v rest H)
      as (_ & _ & _ & _ & _ & _ & _ & Hv).
Qed.

Lemma draw_returns_iff_witness :
  getRandomInt 0 3 [Byte.xff; Byte.xfe; Byte.x05] = Ret 2 [Byte.x05] /\
  0 <= 2 < 3.
Proof.
  assert (Hr : 1 <= 3 - 0 <= 2 ^ 24) by (vm_compute; split; discriminate).
  assert (Hrun : getRandomInt 0 3 [Byte.xff; Byte.xfe; Byte.x05]
                 = Ret 2 [Byte.x05]) by (vm_compute; reflexivity).
  split; [exact Hrun |].
  exact (proj2 (draw_returns_iff 0 3 [Byte.xff; Byte.xfe; Byte.x05] 2
                  [Byte.x05] Hr) Hrun).
Defined.

(** X2. Over a range of at least one value the draw throws on no tape, and
    whatever bytes came before, it returns within two blocks of zero bytes:
    the rejection loop ends as soon as the source yields an accepted block. *)
Theorem draw_never_throws_and_returns (min max : Z) :
  1 <= max - min ->
  (forall (tape : list byte) (e : Error), getRandomInt min max tape <> Throw e) /\
  productive (getRandomInt min max) (2 * Z.to_nat (bytes_for (max - min))) /\
  (forall k : nat,
     (Z.to_nat (bytes_for (max - min)) <= k)%nat ->
     getRandomInt min max (zeros k)
     = Ret min (zeros (k - Z.to_nat (bytes_for (max - min))))).
Proof.
  intros Hr. split; [|split].
  - apply getRandomInt_safe. exact Hr.
  - apply getRandomInt_productive. exact Hr.
  - intros k Hk. apply getRandomInt_zeros; assumption.
Qed.

Lemma draw_never_throws_and_returns_witness :
  getRandomInt 0 91 (zeros 1) = Ret 0 (zeros (1 - Z.to_nat (bytes_for (91 - 0)))).
Proof.
  assert (Hr : 1 <= 91 - 0) by (vm_compute; discriminate).
  destruct (draw_never_throws_and_returns 0 91 Hr) as (_ & _ & H).
  apply H. vm_compute. apply le_n.
Defined.

(** X4. The byte count is the least [n] with [range <= 256^n]; the
    acceptance bound is the largest multiple of the range not above [256^n];
    and more than half of the [256^n] block values are accepted. *)
Theorem byte_count_and_bound (range : Z) :
  1 <= range ->
  range <= 256 ^ bytes_for range /\
  (0 < bytes_for range -> 256 ^ (bytes_for range - 1) < range) /\
  threshold range = 256 ^ bytes_for range / range * range /\
  threshold range <= 256 ^ bytes_for range < threshold range + range /\
  256 ^ bytes_for range < 2 * threshold range.
Proof.
  intros Hr. pose proof (bytes_for_fits _ Hr) as Hfit.
  destruct (threshold_spec _ Hr) as [Hth Hb].
  split; [exact Hfit |]. split; [now apply bytes_for_minimal |].
  split; [exact Hth |].
  assert (Hlt : 256 ^ bytes_for range < threshold range + range).
  { rewrite Hth. pose proof (Z.div_mod (256 ^ bytes_for range) range).
    pose proof (Z.mod_pos_bound (256 ^ bytes_for range) range). lia. }
  split; lia.
Qed.

Lemma byte_count_and_bound_witness :
  257 <= 256 ^ bytes_for 257 /\ 256 ^ (bytes_for 257 - 1) < 257 /\
  threshold 257 = 65535.
Proof.
  assert (Hr : 1 <= 257) by (vm_compute; discriminate).
  destruct (byte_count_and_bound 257 Hr) as (H1 & H2 & H3 & _).
  split; [exact H1 |]. split; [apply H2; vm_compute; reflexivity |].
  vm_compute. reflexivity.
Defined.

(** ** Blocks and their values *)

Lemma be_value_snoc (bs : list byte) (b : byte) :
  be_value (bs ++ [b])%list = be_value bs * 256 + byte_val b.
Proof. unfold be_value. now rewrite fold_left_app. Qed.

Lemma be_value_bound (bs : list byte) :
  0 <= be_value bs < 256 ^ Z.of_nat (List.length bs).
Proof.
  induction bs as [|b bs IH] using rev_ind; [cbn; lia |].
  rewrite be_value_snoc, length_app. cbn [List.length].
  replace (Z.of_nat (List.length bs + 1)) with (Z.of_nat (List.length bs) + 1)
    by lia.
  rewrite Z.pow_add_r by lia. pose proof (byte_val_bound b). lia.
Qed.

Lemma byte_val_inj (b b' : byte) : byte_val b = byte_val b' -> b = b'.
Proof.
  unfold byte_val. intros H. apply N2Z.inj in H.
  pose proof (Byte.of_to_N b) as E. rewrite H, Byte.of_to_N in E.
  now injection E.
Qed.

Lemma byte_val_surj (v : Z) : 0 <= v < 256 -> exists b, byte_val b = v.
Proof.
  intros Hv. destruct (Byte.of_N (Z.to_N v)) as [b|] eqn:E.
  - exists b. apply Byte.to_of_N in E. unfold byte_val. rewrite E. lia.
  - apply Byte.of_N_None_iff in E. lia.
Qed.

(** Blocks of one length with one value are one block... *)
Lemma be_value_inj (bs bs' : list byte) :
  List.length bs = List.length bs' -> be_value bs = be_value bs' -> bs = bs'.
Proof.
  revert bs'. induction bs as [|b bs IH] using rev_ind; intros bs' Hl Hv.
  - destruct bs'; [reflexivity | discriminate Hl].
  - destruct bs' as [|b' bs' _] using rev_ind;
      [rewrite length_app in Hl; cbn in Hl; lia |].
    rewrite !length_app in Hl. cbn [List.length] in Hl.
    rewrite !be_value_snoc in Hv.
    pose proof (byte_val_bound b). pose proof (byte_val_bound b').
    assert (Hb : byte_val b = byte_val b') by lia.
    assert (Hr : be_value bs = be_value bs') by lia.
    rewrite (IH bs') by (try assumption; lia).
    now rewrite (byte_val_inj _ _ Hb).
Qed.

(** ... and every value below [256^n] is the value of a block of [n] bytes. *)
Lemma be_value_surj (n : nat) :
  forall v : Z, 0 <= v < 256 ^ Z.of_nat n ->
    exists bs, List.length bs = n /\ be_value bs = v.
Proof.
  induction n as [|n IH]; intros v Hv.
  - exists []. cbn in *. split; [reflexivity | lia].
  - replace (Z.of_nat (S n)) with (Z.of_nat n + 1) in Hv by lia.
    rewrite Z.pow_add_r in Hv by lia.
    pose proof (Z.div_mod v 256 ltac:(lia)) as Hdm.
    pose proof (Z.mod_pos_bound v 256 ltac:(lia)) as Hmod.
    destruct (IH (v / 256)) as (bs & Hl & Hbs).
    { split; [apply Z.div_pos; lia | apply Z.div_lt_upper_bound; lia]. }
    destruct (byte_val_surj (v mod 256) Hmod) as [b Hb].
    exists (bs ++ [b])%list. split.
    + rewrite length_app. cbn. lia.
    + rewrite be_value_snoc, Hbs, Hb. lia.
Qed.

(** X5. For a range of at most [2^24] values and every [k] below the range,
    the draw returns [min + k] on its first block exactly for the blocks of
    value [q * range + k] with [0 <= q < floor(256^n / range)], and each such
    value is the value of exactly one block of [n] bytes: every result is
    produced by the same number, [floor(256^n / range)], of accepted blocks. *)
Theorem draw_is_uniform (min max : Z) :
  1 <= max - min <= 2 ^ 24 ->
  (forall (k : Z) (bs rest : list byte),
     0 <= k < max - min ->
     List.length bs = Z.to_nat (bytes_for (max - min)) ->
     (getRandomInt min max (bs ++ rest)%list = Ret (min + k) rest <->
      exists q : Z,
        0 <= q < 256 ^ bytes_for (max - min) / (max - min) /\
        be_value bs = q * (max - min) + k)) /\
  (forall k q : Z,
     0 <= k < max - min ->
     0 <= q < 256 ^ bytes_for (max - min) / (max - min) ->
     exists bs : list byte,
       List.length bs = Z.to_nat (bytes_for (max - min)) /\
       be_value bs = q * (max - min) + k /\
       forall bs' : list byte,
         List.length bs' = Z.to_nat (bytes_for (max - min)) ->
         be_value bs' = q * (max - min) + k -> bs' = bs).
Proof.
  intros Hr. assert (Hr1 : 1 <= max - min) by lia.
  pose proof (bytes_for_small _ Hr) as Hn3.
  pose proof (bytes_for_nonneg (max - min)) as Hn0.
  destruct (threshold_spec _ Hr1) as [Hth Hthb].
  split.
  - intros k bs rest Hk Hl.
    destruct (read_val_be bs) as [Ebs Hbs]; [lia |].
    rewrite getRandomInt_unfold, <- Hl, getRandomValues_app by assumption.
    rewrite Ebs.
    pose proof (accepted_values_uniform _ Hr1 k (be_value bs) Hk) as Hu.
    destruct (be_value bs <? threshold (max - min)) eqn:Ea.
    + apply Z.ltb_lt in Ea.
      rewrite Z.rem_mod_nonneg by lia. rewrite <- Hu. split.
      * intros H. injection H as H. split; [lia | lia].
      * intros [_ H]. now rewrite H.
    + apply Z.ltb_ge in Ea. split.
      * intros H. exfalso.
        destruct (getRandomInt_ret min max Hr1 rest _ rest H)
          as (rej & bs' & Hrest & _ & Hl' & Hacc & _).
        apply (f_equal (@List.length byte)) in Hrest.
        rewrite !length_app in Hrest.
        assert (Hz : List.length bs' = O) by lia.
        destruct bs; [|rewrite <- Hl, Hz in Hl'; discriminate Hl'].
        change (be_value []) with 0 in Ea. lia.
      * intros H. apply Hu in H. lia.
  - intros k q Hk Hq.
    assert (Hv : 0 <= q * (max - min) + k < 256 ^ bytes_for (max - min)).
    { rewrite Hth in Hthb. nia. }
    destruct (be_value_surj (Z.to_nat (bytes_for (max - min)))
                            (q * (max - min) + k)) as (bs & Hl & Hbs).
    { rewrite Z2Nat.id by lia. exact Hv. }
    exists bs. split; [exact Hl |]. split; [exact Hbs |].
    intros bs' Hl' Hbs'. apply be_value_inj; congruence.
Qed.

Lemma draw_is_uniform_witness :
  getRandomInt 0 3 ([Byte.xfe] ++ [Byte.x05])%list = Ret (0 + 2) [Byte.x05].
Proof.
  assert (Hr : 1 <= 3 - 0 <= 2 ^ 24) by (vm_compute; split; discriminate).
  assert (Hk : 0 <= 2 < 3 - 0)
    by (vm_compute; split; [discriminate | reflexivity]).
  apply (proj1 (draw_is_uniform 0 3 Hr) 2 [Byte.xfe] [Byte.x05] Hk eq_refl).
  exists 84. vm_compute. split; [split; [discriminate | reflexivity] | reflexivity].
Defined.

Lemma extensible_getRandomInt (min max : Z) :
  extensible (getRandomInt min max).
Proof.
  intros tape v rest ext H.
  destruct (Z_lt_le_dec (max - min) 1) as [Hlt | Hr].
  - exfalso. unfold getRandomInt in H.
    destruct (max - min =? 0) eqn:E0; [discriminate H |].
    destruct (max - min <? 0) eqn:E1; [discriminate H |].
    apply Z.eqb_neq in E0. apply Z.ltb_ge in E1. lia.
  - destruct (getRandomInt_ret min max Hr tape v rest H)
      as (rej & bs & -> & Hrej & Hl & Hacc & ->).
    rewrite <- !app_assoc. now apply getRandomInt_accepts.
Qed.

(** * Further properties of generation *)

Lemma count_true (s : string) : count_chars (fun _ => true) s = String.length s.
Proof. induction s as [|a s IH]; cbn; [reflexivity | now rewrite IH]. Qed.

Lemma drawn_any_char (this : PasswordGenerator) (source : string)
      (xs : list (option string)) :
  strlen source <= 2 ^ 24 ->
  Forall (drawn_from (pick_source this source)) xs ->
  Forall (char_with (fun _ => true)) xs.
Proof.
  intros Hs H. eapply Forall_impl; [|exact (drawn_in_class this source xs Hs H)].
  intros x (c & -> & _). now exists c.
Qed.

Lemma join_concat (sep : string) (ws : list string) :
  Array_join sep (map Some ws) = String.concat sep ws.
Proof.
  induction ws as [|w ws IH]; [reflexivity |].
  destruct ws as [|w' ws]; [reflexivity |].
  cbn [map Array_join String.concat default] in *. now rewrite IH.
Qed.

Lemma drawn_words (wl : list string) (words : list (option string)) :
  Z.of_nat (List.length wl) <= 2 ^ 24 ->
  Forall (drawn_word wl) words ->
  exists ws : list string, words = map Some ws /\ Forall (fun w => In w wl) ws.
Proof.
  intros Hwl. induction 1 as [|x words (i & -> & Hi) _ (ws & -> & Hws)].
  - now exists [].
  - specialize (Hi Hwl). unfold list_index.
    replace (i <? 0) with false by (symmetry; apply Z.ltb_ge; lia).
    destruct (nth_error wl (Z.to_nat i)) as [w|] eqn:E.
    + exists (w :: ws). split; [reflexivity |].
      constructor; [eapply nth_error_In; exact E | exact Hws].
    + apply nth_error_None in E. lia.
Qed.

Lemma throws_eventually_throw {A : Type} (e : Error) :
  throws_eventually (@throw A e) e 0.
Proof. intros tape k _. reflexivity. Qed.

Lemma throws_eventually_bind {A B : Type} (m : M A) (k : A -> M B)
      (P : A -> Prop) (E : Error -> Prop) (e : Error) (c1 c2 : nat) :
  productive m c1 -> spec m P E ->
  (forall a, P a -> throws_eventually (k a) e c2) ->
  throws_eventually (bind m k) e (c1 + c2).
Proof.
  intros Hm Hs Hk tape n Hn.
  destruct (Hm tape n) as (a & tape' & E1); [lia |].
  pose proof (spec_returns _ _ _ _ _ _ Hs E1) as Pa.
  unfold bind. rewrite E1. apply (Hk a Pa). lia.
Qed.

Lemma extensible_ret {A : Type} (a : A) : extensible (ret a).
Proof. intros tape b rest ext H. injection H as <- <-. reflexivity. Qed.

Lemma extensible_throw {A : Type} (e : Error) : extensible (@throw A e).
Proof. intros tape b rest ext H. discriminate H. Qed.

Lemma extensible_bind {A B : Type} (m : M A) (k : A -> M B) :
  extensible m -> (forall a, extensible (k a)) -> extensible (bind m k).
Proof.
  intros Hm Hk tape b rest ext H. unfold bind in *.
  destruct (m tape) as [a t | e |] eqn:E; try discriminate H.
  rewrite (Hm _ _ _ ext E). now apply Hk.
Qed.

Lemma extensible_push_loop {T : Type} (body : M (option T)) :
  extensible body ->
  forall (n : nat) (a : list (option T)), extensible (push_loop n body a).
Proof.
  intros Hb. induction n as [|n IH]; intros a; cbn [push_loop].
  - apply extensible_ret.
  - apply extensible_bind; [exact Hb | intros x; apply IH].
Qed.

Lemma extensible_shuffle_loop {T : Type} (k : nat) :
  forall result : list (option T), extensible (shuffle_loop k result).
Proof.
  induction k as [|k IH]; intros result; cbn [shuffle_loop].
  - apply extensible_ret.
  - apply extensible_bind;
      [apply extensible_getRandomInt | intros j; apply IH].
Qed.

Lemma num_inj (a b : Z) : num a = num b -> a = b.
Proof. unfold num, inject_Z. intros H. now injection H. Qed.

Lemma preset_customCharset (o : PasswordOptions) :
  Opt.customCharset (preset_object o) = None.
Proof.
  destruct (preset_object_cases o) as [-> | [-> | [-> | [-> | ->]]]]; reflexivity.
Qed.

Section GenerationExtras.

Variable DEFAULT_WORDLIST : list string.
Context {F : Type} {float64 : Float64 F}.

Lemma random_password_length_aux :
  forall (options : PasswordOptions) (g : PasswordGenerator)
         (tape : list byte) (r : PasswordResult F) (rest : list byte),
    constructor options = inr g ->
    Gen.mode g = random ->
    strlen (Gen.charset g) <= 2 ^ 24 ->
    generateFull DEFAULT_WORDLIST g tape = Ret r rest ->
    exists q : Q,
      default (num 12) (Opt.length (resolved_options options)) = Num q /\
      Z.of_nat (String.length (password r)) = Qfloor q.
Proof.
  intros options g tape r rest Hc Hm Hsmall Hr.
  destruct (constructor_random _ _ Hc Hm) as (q & Hq & _ & _ & Hl & Hz & Hcs).
  exists q. split; [exact Hq |].
  rewrite (generateFull_random DEFAULT_WORDLIST _ Hm) in Hr.
  assert (Hs := spec_generateRandom (F := F) g (Qfloor q) Hl ltac:(lia) Hcs).
  destruct (spec_returns _ _ _ _ _ _ Hs Hr)
    as (_ & chars & shuffled & Has & Hlen & Hperm & Hpw & _).
  destruct Has as (lower & upper & digit & special & fill & -> &
                   _ & _ & _ & _ & _ & F1 & F2 & F3 & F4 & F5).
  rewrite Hpw, <- count_true, count_join, <- (count_elems_perm _ _ _ Hperm).
  rewrite count_elems_all; [lia |].
  assert (Hcls : forall s, In s [LOWER; UPPER; DIGITS; SPECIAL] ->
                           strlen s <= 2 ^ 24).
  { intros s [<- | [<- | [<- | [<- | []]]]]; vm_compute; discriminate. }
  apply Forall_app; split;
    [apply (drawn_any_char g LOWER); [apply Hcls; cbn; auto | exact F1] |].
  apply Forall_app; split;
    [apply (drawn_any_char g UPPER); [apply Hcls; cbn; auto | exact F2] |].
  apply Forall_app; split;
    [apply (drawn_any_char g DIGITS); [apply Hcls; cbn; auto | exact F3] |].
  apply Forall_app; split;
    [apply (drawn_any_char g SPECIAL); [apply Hcls; cbn; auto | exact F4] |].
  apply (drawn_any_char g (Gen.charset g)); [exact Hsmall | exact F5].
Qed.

(** X6. A random-mode password has exactly as many characters as the floor
    of the resolved length (the request's or preset's length, 12 by default),
    for every alphabet of at most [2^24] characters; the resolved length lies
    between 8 and 128. *)
Theorem random_password_length :
  forall (options : PasswordOptions) (g : PasswordGenerator)
         (tape : list byte) (r : PasswordResult F) (rest : list byte),
    constructor options = inr g ->
    Gen.mode g = random ->
    strlen (Gen.charset g) <= 2 ^ 24 ->
    generateFull DEFAULT_WORDLIST g tape = Ret r rest ->
    exists q : Q,
      default (num 12) (Opt.length (resolved_options options)) = Num q /\
      Z.of_nat (String.length (password r)) = Qfloor q /\
      8 <= Qfloor q <= 128.
Proof.
  intros options g tape r rest Hc Hm Hsmall Hr.
  destruct (random_password_length_aux options g tape r rest Hc Hm Hsmall Hr)
    as (q & Hq & Hlen).
  exists q. split; [exact Hq |]. split; [exact Hlen |].
  destruct (constructor_random _ _ Hc Hm) as (q' & Hq' & _ & _ & _ & Hz & _).
  rewrite Hq in Hq'. injection Hq' as <-. exact Hz.
Qed.

(** X7. A passphrase over a word source of at most [2^24] words is the
    separator-joined sequence of words of that source, one for each round of
    the loop: [n] words for an integer count [n]. *)
Theorem passphrase_is_words_of_the_source :
  forall (options : PasswordOptions) (g : PasswordGenerator)
         (tape : list byte) (r : PasswordResult F) (rest : list byte),
    constructor options = inr g ->
    Gen.mode g = passphrase ->
    Z.of_nat (List.length (getWordlist DEFAULT_WORDLIST g)) <= 2 ^ 24 ->
    generateFull DEFAULT_WORDLIST g tape = Ret r rest ->
    exists ws : list string,
      Forall (fun w => In w (getWordlist DEFAULT_WORDLIST g)) ws /\
      password r
      = String.concat (or_str (Opt.separator (Gen.options g)) "-") ws /\
      List.length ws = iterations 0 (Gen.length g) /\
      (forall n : Z, Gen.length g = num n -> List.length ws = Z.to_nat n).
Proof.
  intros options g tape r rest Hc Hm Hsmall Hr.
  rewrite (generateFull_passphrase DEFAULT_WORDLIST _ Hm) in Hr.
  destruct (spec_returns _ _ _ _ _ _
              (spec_generatePassphrase DEFAULT_WORDLIST g) Hr)
    as (words & Hl & Hw & Hp & _).
  destruct (drawn_words _ _ Hsmall Hw) as (ws & -> & Hin).
  exists ws. rewrite length_map in Hl. rewrite join_concat in Hp.
  repeat split; try assumption.
  intros n Hn. rewrite Hl, Hn, iterations_num. f_equal. lia.
Qed.

(** X8. When no minimum is requested and the default composition is off (a
    custom alphabet is given or special characters are disabled), every
    character of a random-mode password belongs to the resolved alphabet. *)
Theorem unboosted_password_stays_in_alphabet :
  forall (options : PasswordOptions) (g : PasswordGenerator)
         (tape : list byte) (r : PasswordResult F) (rest : list byte),
    constructor options = inr g ->
    Gen.mode g = random ->
    negb (truthy_str (Opt.customCharset (Gen.options g)))
      && default true (Opt.isSpecial (Gen.options g)) = false ->
    Opt.minLower (Gen.options g) = None ->
    Opt.minUpper (Gen.options g) = None ->
    Opt.minDigit (Gen.options g) = None ->
    Opt.minSpecial (Gen.options g) = None ->
    generateFull DEFAULT_WORDLIST g tape = Ret r rest ->
    all_chars (in_class (Gen.charset g)) (password r).
Proof.
  intros options g tape r rest Hc Hm Hb H1 H2 H3 H4 Hr.
  destruct (spec_constructed_random DEFAULT_WORDLIST _ _ Hc Hm)
    as (z & Hl & Hz & Hcs & Hs).
  destruct (spec_returns _ _ _ _ _ _ Hs Hr)
    as (_ & chars & shuffled & Has & Hlen & Hperm & Hpw & _).
  destruct Has as (lower & upper & digit & special & fill & -> &
                   L1 & L2 & L3 & L4 & _ & _ & _ & _ & _ & F5).
  assert (Hzero : forall requested, requested = None ->
                    iterations 0 (actualMin g requested) = O).
  { intros requested ->. unfold actualMin. cbv zeta. rewrite Hb. reflexivity. }
  rewrite (Hzero _ H1) in L1. rewrite (Hzero _ H2) in L2.
  rewrite (Hzero _ H3) in L3. rewrite (Hzero _ H4) in L4.
  apply length_zero_iff_nil in L1, L2, L3, L4. subst. cbn [app] in *.
  unfold all_chars. rewrite Hpw, count_join, <- (count_elems_perm _ _ _ Hperm).
  apply count_elems_none. eapply Forall_impl; [|exact F5].
  intros x Hx. destruct (drawn_none_or_char _ _ Hx) as [-> | (c & -> & Hin)].
  - reflexivity.
  - unfold free_of. cbn [default count_chars].
    apply pick_source_subset in Hin. apply in_class_spec in Hin.
    now rewrite Hin.
Qed.

(** X9. When the guaranteed characters outnumber the length, generation
    does throw the minimums error: whatever bytes came before, it throws once
    the source has supplied enough bytes for the guaranteed draws. *)
Theorem minimums_error_is_thrown :
  forall (options : PasswordOptions) (g : PasswordGenerator),
    constructor options = inr g ->
    Gen.mode g = random ->
    num_gt (num (Z.of_nat (required_count g))) (Gen.length g) = true ->
    exists c, throws_eventually (generateFull DEFAULT_WORDLIST g)
                                MinimumsExceedLength c.
Proof.
  intros options g Hc Hm Hgt.
  destruct (productive_pick g LOWER LOWER_nonempty) as [c1 P1].
  destruct (productive_pick g UPPER UPPER_nonempty) as [c2 P2].
  destruct (productive_pick g DIGITS DIGITS_nonempty) as [c3 P3].
  destruct (productive_pick g SPECIAL SPECIAL_nonempty) as [c4 P4].
  rewrite (generateFull_random DEFAULT_WORDLIST _ Hm).
  eexists. unfold generateRandom. cbv zeta.
  eapply throws_eventually_bind;
    [apply productive_push_loop, P1
    | apply spec_push_loop, spec_pick, LOWER_nonempty |].
  intros r1 (lower & -> & L1 & _).
  eapply throws_eventually_bind;
    [apply productive_push_loop, P2
    | apply spec_push_loop, spec_pick, UPPER_nonempty |].
  intros r2 (upper & -> & L2 & _).
  eapply throws_eventually_bind;
    [apply productive_push_loop, P3
    | apply spec_push_loop, spec_pick, DIGITS_nonempty |].
  intros r3 (digit & -> & L3 & _).
  eapply throws_eventually_bind;
    [apply productive_push_loop, P4
    | apply spec_push_loop, spec_pick, SPECIAL_nonempty |].
  intros r4 (special & -> & L4 & _).
  cbn [app].
  assert (Hreq : List.length (((lower ++ upper) ++ digit) ++ special)%list
                 = required_count g).
  { rewrite !length_app, L1, L2, L3, L4. reflexivity. }
  rewrite Hreq, Hgt. apply throws_eventually_throw.
Qed.


(** X11. Generation reads only the bytes it consumes: a run that returns
    yields the same result when more bytes follow on the tape, and leaves
    them unread. *)
Theorem generation_reads_only_what_it_consumes :
  forall g : PasswordGenerator, extensible (generateFull DEFAULT_WORDLIST g).
Proof.
  intros g.
  assert (Hpick : forall s, extensible (pick g s)).
  { intros s. unfold pick. cbv zeta. destruct (_ =? 0);
      (apply extensible_bind;
       [apply extensible_getRandomInt | intros i; apply extensible_ret]). }
  unfold generateFull. destruct (Gen.mode g).
  - unfold generateRandom. cbv zeta.
    repeat (apply extensible_bind;
            [apply extensible_push_loop, Hpick | intros ?]).
    destruct (num_gt _ _); [apply extensible_throw |].
    apply extensible_bind; [apply extensible_push_loop, Hpick | intros ?].
    apply extensible_bind; [apply extensible_shuffle_loop | intros ?].
    apply extensible_ret.
  - unfold generatePassphrase. cbv zeta.
    apply extensible_bind; [| intros ?; apply extensible_ret].
    apply extensible_push_loop.
    apply extensible_bind;
      [apply extensible_getRandomInt | intros i; apply extensible_ret].
Qed.

End GenerationExtras.

(** X12. For arrays of at most [2^24] elements the shuffle returns a
    rearrangement of its input, throws on no tape, and returns once the source
    supplies enough bytes. *)
Theorem shuffle_permutes (T : Type) (array : list (option T)) :
  Z.of_nat (List.length array) <= 2 ^ 24 ->
  (forall (tape : list byte) (shuffled : list (option T)) (rest : list byte),
     shuffle array tape = Ret shuffled rest ->
     Permutation array shuffled /\ List.length shuffled = List.length array) /\
  (forall (tape : list byte) (e : Error), shuffle array tape <> Throw e) /\
  exists c, productive (shuffle array) c.
Proof.
  intros H. pose proof (spec_shuffle T array H) as Hs. split; [|split].
  - intros tape shuffled rest Hr.
    pose proof (spec_returns _ _ _ _ _ _ Hs Hr) as Hp.
    split; [exact Hp | symmetry; now apply Permutation_length].
  - intros tape e Hr. exact (spec_throws _ _ _ _ _ Hs Hr).
  - apply productive_shuffle.
Qed.

Lemma shuffle_permutes_witness :
  Permutation [Some 1; Some 2; Some 3] [Some 2; Some 3; Some 1].
Proof.
  assert (Hlen : Z.of_nat (List.length [Some 1; Some 2; Some 3]) <= 2 ^ 24)
    by (vm_compute; discriminate).
  destruct (shuffle_permutes Z [Some 1; Some 2; Some 3] Hlen) as (H & _).
  apply (H [Byte.x00; Byte.x00] _ []). vm_compute. reflexivity.
Defined.

(** * Further properties of configuration *)

(** X13. An empty custom alphabet is not an error: the request is resolved
    as if no custom alphabet were given, accepted or rejected alike and with
    the same mode, length, alphabet and flag. *)
Theorem empty_custom_charset_uses_default (options : PasswordOptions) :
  Opt.customCharset options = Some "" ->
  constructor options <> inl EmptyCharset /\
  match constructor options, constructor (with_customCharset options None) with
  | inl e, inl e' => e = e'
  | inr g, inr g' =>
      Gen.mode g = Gen.mode g' /\ Gen.length g = Gen.length g' /\
      Gen.charset g = Gen.charset g' /\ Gen.isSpecial g = Gen.isSpecial g'
  | _, _ => False
  end.
Proof.
  intros Hcs. split.
  - intros H. apply constructor_errors in H.
    destruct H as [H | [H | H]]; discriminate H.
  - unfold constructor. cbv zeta.
    change (preset_object (with_customCharset options None))
      with (preset_object options).
    cbn [spread Opt.mode Opt.length Opt.isSpecial Opt.customCharset
         Opt.excludeSimilar with_customCharset].
    rewrite (preset_customCharset options), Hcs. cbn [over truthy_str].
    repeat match goal with
           | |- context [match ?x with _ => _ end] =>
               match x with
               | context [match _ with _ => _ end] => fail 1
               | _ => destruct x eqn:?
               end
           end; cbn; auto.
Qed.

Lemma empty_custom_charset_uses_default_witness :
  constructor request_empty_charset <> inl EmptyCharset.
Proof.
  exact (proj1 (empty_custom_charset_uses_default request_empty_charset eq_refl)).
Defined.

(** X14. In random mode the constructor raises the empty-after-exclusion
    error exactly when the length is valid, the exclusion is on, and a
    non-empty custom alphabet consists of similar characters only; the default
    alphabets never empty. *)
Theorem exclusion_error_iff (options : PasswordOptions) :
  default random (Opt.mode (resolved_options options)) = random ->
  (constructor options = inl EmptyCharsetAfterExclusion <->
   (exists q : Q,
      default (num 12) (Opt.length (resolved_options options)) = Num q /\
      (8 <= q)%Q /\ (q <= 128)%Q) /\
   default false (Opt.excludeSimilar (resolved_options options)) = true /\
   exists cs : string,
     Opt.customCharset (resolved_options options) = Some cs /\
     cs <> "" /\ replace_similar cs = "").
Proof.
  intros Hm. unfold constructor. fold (resolved_options options).
  cbv zeta. rewrite Hm.
  destruct (default (num 12) _) as [|q] eqn:El; cbn [isNaN orb].
  { split; [discriminate |]. intros ((q & Hq & _) & _). discriminate Hq. }
  destruct (num_lt (Num q) (num 8)) eqn:E8.
  { cbn [orb]. apply num_lt_spec in E8. split; [discriminate |].
    intros ((q' & Hq & H8 & _) & _). injection Hq as <-.
    exfalso. exact (Qlt_not_le _ _ E8 H8). }
  unfold num_gt. destruct (num_lt (num 128) (Num q)) eqn:E128.
  { cbn [orb]. apply num_lt_spec in E128. split; [discriminate |].
    intros ((q' & Hq & _ & H128) & _). injection Hq as <-.
    exfalso. exact (Qlt_not_le _ _ E128 H128). }
  cbn [orb]. apply num_lt_false in E8. apply num_lt_false in E128.
  assert (Hlen : exists q' : Q, Num q = Num q' /\ (8 <= q')%Q /\ (q' <= 128)%Q)
    by (exists q; auto).
  assert (Hempty : forall s, (strlen s =? 0) = true <-> s = "").
  { intros s. rewrite Z.eqb_eq. unfold strlen. destruct s; cbn; split;
      intros H; try reflexivity; try discriminate H; lia. }
  destruct (Opt.customCharset (resolved_options options)) as [[|c cs]|] eqn:Ecs;
    cbn [truthy_str default].
  - (* empty custom alphabet: the default alphabets *)
    split.
    + intros H. exfalso.
      destruct (default false _); [|discriminate H].
      destruct (default true _); vm_compute in H; discriminate H.
    + intros (_ & _ & cs & Hcs & Hne & _). injection Hcs as <-. congruence.
  - change (strlen (String c cs) =? 0) with false. cbv iota.
    destruct (default false _) eqn:Ex.
    + destruct (strlen (replace_similar (String c cs)) =? 0) eqn:Er.
      * apply Hempty in Er. split; [intros _ | reflexivity].
        split; [exact Hlen |]. split; [reflexivity |].
        exists (String c cs). split; [reflexivity |]. split; [discriminate | exact Er].
      * split; [discriminate |].
        intros (_ & _ & cs' & Hcs & _ & Hr). injection Hcs as <-.
        apply Hempty in Hr. congruence.
    + split; [discriminate |]. intros (_ & H & _). discriminate H.
  - split.
    + intros H. exfalso.
      destruct (default false _); [|discriminate H].
      destruct (default true _); vm_compute in H; discriminate H.
    + intros (_ & _ & cs & Hcs & _). discriminate Hcs.
Qed.

Lemma exclusion_error_iff_witness :
  constructor request_only_similar = inl EmptyCharsetAfterExclusion.
Proof.
  apply (proj2 (exclusion_error_iff request_only_similar eq_refl)).
  split; [exists (inject_Z 12); vm_compute; repeat split; discriminate |].
  split; [reflexivity |].
  exists "il1". vm_compute. repeat split. discriminate.
Defined.

Lemma random_length_rejected_witness :
  constructor (request_length (num 129)) = inl InvalidLength.
Proof.
  apply (proj2 (random_length_rejected (request_length (num 129)) eq_refl)).
  right. vm_compute. reflexivity.
Defined.

Lemma passphrase_length_rejected_witness :
  constructor (request_words (num 21)) = inl InvalidPassphraseLength.
Proof.
  apply (proj2 (passphrase_length_rejected (request_words (num 21)) eq_refl)).
  right. vm_compute. reflexivity.
Defined.

(** * The further properties at concrete requests *)

Lemma random_password_length_witness :
  exists g r rest,
    constructor request_fractional_length = inr g /\
    generateFull (F := number) sample_wordlist g (zeros 30) = Ret r rest /\
    Z.of_nat (String.length (password r)) = 12.
Proof.
  built g Hc.
  assert (Hm : Gen.mode g = random)
    by (vm_compute in Hc; injection Hc as <-; reflexivity).
  assert (Hs : strlen (Gen.charset g) <= 2 ^ 24)
    by (vm_compute in Hc; injection Hc as <-; vm_compute; discriminate).
  ran g Hc r rest Hr (generateFull (F := number) sample_wordlist g (zeros 30)).
  exists g, r, rest. split; [reflexivity |]. split; [exact Hr |].
  destruct (random_password_length sample_wordlist request_fractional_length
              g (zeros 30) r rest Hc Hm Hs Hr) as (q & Hq & Hl & _).
  vm_compute in Hq. injection Hq as <-. exact Hl.
Defined.

Lemma passphrase_is_words_of_the_source_witness :
  exists g r rest,
    constructor (request_words (num 3)) = inr g /\
    generateFull (F := number) sample_wordlist g
                 [Byte.x01; Byte.x02; Byte.x03] = Ret r rest /\
    exists ws : list string,
      Forall (fun w => In w (getWordlist sample_wordlist g)) ws /\
      password r = String.concat (or_str (Opt.separator (Gen.options g)) "-") ws.
Proof.
  built g Hc.
  assert (Hm : Gen.mode g = passphrase)
    by (vm_compute in Hc; injection Hc as <-; reflexivity).
  assert (Hs : Z.of_nat (List.length (getWordlist sample_wordlist g)) <= 2 ^ 24)
    by (vm_compute in Hc; injection Hc as <-; vm_compute; discriminate).
  ran g Hc r rest Hr (generateFull (F := number) sample_wordlist g
                                   [Byte.x01; Byte.x02; Byte.x03]).
  exists g, r, rest. split; [reflexivity |]. split; [exact Hr |].
  destruct (passphrase_is_words_of_the_source sample_wordlist
              (request_words (num 3)) g _ r rest Hc Hm Hs Hr)
    as (ws & Hin & Hp & _).
  exists ws. split; assumption.
Defined.

Lemma unboosted_password_stays_in_alphabet_witness :
  exists g r rest,
    constructor request_custom_abc = inr g /\
    generateFull (F := number) sample_wordlist g (zeros 40) = Ret r rest /\
    all_chars (in_class (Gen.charset g)) (password r).
Proof.
  built g Hc.
  assert (Hg : g = Gen.mk random (num 20) "abc" true request_custom_abc)
    by (vm_compute in Hc; injection Hc as <-; reflexivity).
  ran g Hc r rest Hr (generateFull (F := number) sample_wordlist g (zeros 40)).
  exists g, r, rest. split; [reflexivity |]. split; [exact Hr |].
  apply (unboosted_password_stays_in_alphabet sample_wordlist
           request_custom_abc g (zeros 40) r rest Hc);
    try exact Hr; rewrite Hg; reflexivity.
Defined.

Lemma minimums_error_is_thrown_witness :
  exists g c,
    constructor request_minimums_12_of_8 = inr g /\
    throws_eventually (generateFull (F := number) sample_wordlist g)
                      MinimumsExceedLength c.
Proof.
  built g Hc.
  assert (Hg : Gen.mode g = random /\
               num_gt (num (Z.of_nat (required_count g))) (Gen.length g) = true)
    by (vm_compute in Hc; injection Hc as <-; split; vm_compute; reflexivity).
  destruct Hg as [Hm Hgt].
  destruct (minimums_error_is_thrown (F := number) sample_wordlist
              request_minimums_12_of_8 g Hc Hm Hgt) as [c H].
  exists g, c. split; [reflexivity | exact H].
Defined.


Section MoreGenerationExtras.

Variable DEFAULT_WORDLIST : list string.
Context {F : Type} {float64 : Float64 F}.

(** X17. A random-mode request that asks for no minimum never fails in
    generation: at most the four default characters are guaranteed, they fit
    any valid length, so no tape makes generation throw and it returns once
    the source supplies enough bytes. *)
Theorem request_without_minimums_never_throws :
  forall (options : PasswordOptions) (g : PasswordGenerator),
    constructor options = inr g ->
    Gen.mode g = random ->
    Opt.minLower (Gen.options g) = None ->
    Opt.minUpper (Gen.options g) = None ->
    Opt.minDigit (Gen.options g) = None ->
    Opt.minSpecial (Gen.options g) = None ->
    (required_count g <= 4)%nat /\
    (forall (tape : list byte) (e : Error),
       generateFull DEFAULT_WORDLIST g tape <> Throw e) /\
    exists c, productive (generateFull DEFAULT_WORDLIST g) c.
Proof.
  intros options g Hc Hm H1 H2 H3 H4.
  assert (Hone : forall requested, requested = None ->
                   (iterations 0 (actualMin g requested) <= 1)%nat).
  { intros requested ->. unfold actualMin. cbv zeta.
    destruct (negb _ && _); vm_compute; auto. }
  assert (Hreq : (required_count g <= 4)%nat).
  { unfold required_count. cbv zeta.
    pose proof (Hone _ H1). pose proof (Hone _ H2).
    pose proof (Hone _ H3). pose proof (Hone _ H4). lia. }
  destruct (spec_constructed_random DEFAULT_WORDLIST _ _ Hc Hm)
    as (z & Hl & Hz & Hcs & Hs).
  split; [exact Hreq |]. split.
  - intros tape e H. destruct (spec_throws _ _ _ _ _ Hs H) as [_ Hlt]. lia.
  - rewrite (generateFull_random DEFAULT_WORDLIST _ Hm).
    apply (productive_generateRandom g z); try assumption; lia.
Qed.

(** X18. A passphrase generator whose word count is [NaN], which the
    constructor accepts, returns the empty passphrase on every tape and reads
    no byte. *)
Theorem NaN_word_count_gives_empty_passphrase :
  forall (g : PasswordGenerator) (tape : list byte),
    Gen.mode g = passphrase ->
    Gen.length g = NaN ->
    exists r : PasswordResult F,
      generateFull DEFAULT_WORDLIST g tape = Ret r tape /\ password r = "".
Proof.
  intros g tape Hm Hl. rewrite (generateFull_passphrase DEFAULT_WORDLIST _ Hm).
  unfold generatePassphrase. cbv zeta. rewrite Hl. cbn [iterations push_loop].
  eexists. split; reflexivity.
Qed.

End MoreGenerationExtras.

Lemma request_without_minimums_never_throws_witness :
  exists g,
    constructor (request_length (num 8)) = inr g /\
    forall (tape : list byte) (e : Error),
      generateFull (F := number) sample_wordlist g tape <> Throw e.
Proof.
  built g Hc.
  assert (Hg : Gen.mode g = random /\ Gen.options g = request_length (num 8))
    by (vm_compute in Hc; injection Hc as <-; split; reflexivity).
  destruct Hg as [Hm Ho].
  exists g. split; [reflexivity |].
  apply (request_without_minimums_never_throws (F := number) sample_wordlist
           (request_length (num 8)) g Hc Hm);
    rewrite Ho; reflexivity.
Defined.

Lemma NaN_word_count_gives_empty_passphrase_witness :
  exists r : PasswordResult number,
    generateFull sample_wordlist
                 (Gen.mk passphrase NaN "" false request_passphrase_NaN) []
    = Ret r [] /\ password r = "".
Proof.
  exact (NaN_word_count_gives_empty_passphrase sample_wordlist
           (Gen.mk passphrase NaN "" false request_passphrase_NaN) []
           eq_refl eq_refl).
Defined.
